(** * git-bug: operations, identities and the repository cache

    A shallow embedding of the parts of git-bug that its specification makes
    claims about:

    - package [identity]: the version chain of an identity, its validation,
      the keys valid at a logical time and the display name;
    - package [bug]: the [create] and [edit_comment] operations, the
      snapshot and its timeline;
    - package [cache]: the excerpt map, prefix and metadata resolution, the
      query entry point and the process lock file.

    Go values are modelled as follows.  A [string] is a byte string, a slice
    is a [list], a [map[string]T] is a [gmap string T] together with the order
    in which [range] visits it, a [uint64] logical time is an [N], an [int] is
    a [Z].  A function that can return an [error] or panic returns an
    [outcome]. *)

From Stdlib Require Import ZArith NArith Lia Sorted Ascii.
From stdpp Require Import base option list strings gmap fin_maps sorting pretty.

(** ** Outcomes of Go calls *)

(** A call returns normally, returns a non-nil [error], or panics. *)
Inductive outcome (E A : Type) : Type :=
  | Return (a : A)
  | Failure (e : E)
  | Panicked (msg : string).
Arguments Return {E A} a.
Arguments Failure {E A} e.
Arguments Panicked {E A} msg.

Definition obind {E A B} (m : outcome E A) (k : A → outcome E B) : outcome E B :=
  match m with
  | Return a => k a
  | Failure e => Failure e
  | Panicked msg => Panicked msg
  end.

Declare Scope outcome_scope.
Delimit Scope outcome_scope with outcome.
Notation "'let*' x ':=' m 'in' k" := (obind m (λ x, k))
  (at level 10, x name, m at level 100, k at level 200,
   format "'[v' 'let*'  x  ':='  m  'in' '/' k ']'") : outcome_scope.
Local Open Scope outcome_scope.

Definition returns {E A} (m : outcome E A) : bool :=
  match m with Return _ => true | _ => false end.

Definition fails {E A} (m : outcome E A) : bool :=
  match m with Failure _ => true | _ => false end.

(** Go's [s == ""] on strings. *)
Definition is_empty (s : string) : bool := bool_decide (s = "").

(** ** Package identity *)

Module identity.

(** [lamport.Time] is an unsigned 64-bit counter; only comparisons are
    performed on it here. *)
Definition lamport_Time : Type := N.

Record Key : Type := mkKey {
  Fingerprint : string;
  PubKey : string;
}.

(** Modelled from the spec: the [Version] struct is declared in a file that
    is not among the files verified here; its fields are those the spec
    lists for a version and the ones [Identity]'s methods read. *)
Record Version : Type := mkVersion {
  Name : string;
  Email : string;
  Login : string;
  AvatarUrl : string;
  Keys : list Key;
  Nonce : list Byte.byte;
  UnixTime : Z;
  Time : lamport_Time;
  commitHash : string;
}.

Record Identity : Type := mkIdentity {
  id : string;
  Versions : list Version;
}.

Inductive error : Type :=
  | ErrVersion (msg : string)
  | ErrNonChronological (lastTime time : lamport_Time).

(** [Identity.LastVersion] *)
Definition LastVersion (i : Identity) : outcome error Version :=
  match last (Versions i) with
  | None => Panicked "no version at all"
  | Some v => Return v
  end.

(** [Identity.Name] and [Identity.Login] *)
Definition Identity_Name (i : Identity) : outcome error string :=
  let* v := LastVersion i in Return (Name v).

Definition Identity_Login (i : Identity) : outcome error string :=
  let* v := LastVersion i in Return (Login v).

(** [fmt.Sprintf("%s (%s)", name, login)] *)
Definition sprintf_name_login (name login : string) : string :=
  name +:+ " (" +:+ login +:+ ")".

(** [Identity.DisplayName].  The [switch] evaluates its cases in order;
    every condition calls the accessors again, which is harmless since they
    do not change the identity. *)
Definition DisplayName (i : Identity) : outcome error string :=
  let* name := Identity_Name i in
  let* login := Identity_Login i in
  if is_empty name && negb (is_empty login) then Return login
  else if negb (is_empty name) && is_empty login then Return name
  else if negb (is_empty name) && negb (is_empty login)
    then Return (sprintf_name_login name login)
  else Panicked "invalid person data".

(** [Identity.ValidKeysAtTime]: the loop, with [result] as accumulator. *)
Fixpoint ValidKeysAtTime_from (result : list Key) (vs : list Version)
    (time : lamport_Time) : list Key :=
  match vs with
  | [] => result
  | v :: vs' =>
      if (time <? Time v)%N then result
      else ValidKeysAtTime_from (Keys v) vs' time
  end.

Definition ValidKeysAtTime (i : Identity) (time : lamport_Time) : list Key :=
  ValidKeysAtTime_from [] (Versions i) time.

Section Validate.
(** [Version.Validate] is declared in a file that is not verified here:
    it is a parameter of the embedding.  [None] is Go's [nil] error. *)
Variable Version_Validate : Version → option string.

Fixpoint Validate_from (lastTime : lamport_Time) (vs : list Version)
    : option error :=
  match vs with
  | [] => None
  | v :: vs' =>
      match Version_Validate v with
      | Some msg => Some (ErrVersion msg)
      | None =>
          if (Time v <? lastTime)%N
          then Some (ErrNonChronological lastTime (Time v))
          else Validate_from (Time v) vs'
      end
  end.

(** [Identity.Validate] *)
Definition Validate (i : Identity) : option error :=
  Validate_from 0%N (Versions i).
End Validate.

(** The logical times along the chain, oldest first. *)
Definition times (i : Identity) : list lamport_Time := Time <$> Versions i.

(** What the specification says [valid_keys_at] returns: the keys of the
    latest version, in chain order, whose logical time is at most [t]; no
    key when there is no such version. *)
Definition keys_of_latest_version_at (i : Identity) (t : lamport_Time)
    : list Key :=
  match last (filter (λ v, (Time v ≤ t)%N) (Versions i)) with
  | Some v => Keys v
  | None => []
  end.

(** What the specification says of the display name: the name if only
    the name is present, the login if only the login is present, "name
    (login)" if both are; there is none when both are empty. *)
Definition display_name (name login : string) : option string :=
  match is_empty name, is_empty login with
  | false, true => Some name
  | true, false => Some login
  | false, false => Some (name +:+ " (" +:+ login +:+ ")")
  | true, true => None
  end.

(** The outcome of a display-name computation that agrees with the
    specification: the string, or the panic for an identity without name
    and login. *)
Definition displays {E} (m : outcome E string) (name login : string) : Prop :=
  match display_name name login with
  | Some s => m = Return s
  | None => m = Panicked "invalid person data"
  end.

(** A descent: a logical time strictly less than the one before it in the
    chain. *)
Definition descent (l : list lamport_Time) : Prop :=
  ∃ k a b, l !! k = Some a ∧ l !! S k = Some b ∧ (b < a)%N.

(** *** Building identities *)

(** [Identity.AddVersion] *)
Definition AddVersion (i : Identity) (version : Version) : Identity :=
  {| id := id i; Versions := Versions i ++ [version] |}.

(** [Identity.Id] *)
Definition Identity_Id (i : Identity) : outcome error string :=
  if is_empty (id i) then Panicked "no id yet" else Return (id i).

(** [Identity.Keys] *)
Definition Identity_Keys (i : Identity) : outcome error (list Key) :=
  let* v := LastVersion i in Return (Keys v).

(** *** The identity of the user *)

Inductive config_error : Type :=
  | ErrNoIdentitySet
  | ErrMultipleIdentityConfig
  | ErrRepository (msg : string).

Section GetIdentity.
(** The repository is declared in files that are not verified here:
    the result of [repo.ReadConfigs(identityConfigKey)], the function
    [Read] that loads an identity from its id, and the order in which
    [range] visits the configuration map are parameters of the
    embedding. *)
Variable ReadConfigs : outcome config_error (gmap string string).
Variable Read : string → outcome config_error Identity.
Variable range_configs : gmap string string → list (string * string).

(** [GetIdentity] *)
Definition GetIdentity : outcome config_error Identity :=
  let* configs := ReadConfigs in
  if bool_decide (size configs = 0) then Failure ErrNoIdentitySet
  else if bool_decide (1 < size configs)
    then Failure ErrMultipleIdentityConfig
  else
    let id := foldl (λ _ entry, entry.2) "" (range_configs configs) in
    Read id.
End GetIdentity.

End identity.

(** ** Package bug *)

Module bug.

(** [git.Hash] *)
Definition Hash : Type := string.

Definition Timestamp : Type := Z.

Inductive Status : Type := OpenStatus | ClosedStatus.

#[global] Instance Status_eq_dec : EqDecision Status.
Proof. solve_decision. Defined.

Inductive OperationType : Type :=
  | CreateOp | SetTitleOp | AddCommentOp | SetStatusOp | LabelChangeOp
  | EditCommentOp.

#[global] Instance OperationType_eq_dec : EqDecision OperationType.
Proof. solve_decision. Defined.

(** The header shared by all operations.  [Author] is the id of the
    identity the operation refers to, [None] for a nil interface. *)
Record OpBase : Type := mkOpBase {
  OpType : OperationType;
  Author : option string;
  UnixTime : Z;
  Metadata : gmap string string;
}.

Record CreateOperation : Type := mkCreateOperation {
  create_base : OpBase;
  create_Title : string;
  create_Message : string;
  create_Files : list Hash;
}.

Record EditCommentOperation : Type := mkEditCommentOperation {
  edit_base : OpBase;
  edit_Target : Hash;
  edit_Message : string;
  edit_Files : list Hash;
}.

Record Comment : Type := mkComment {
  comment_Author : option string;
  comment_Message : string;
  comment_Files : list Hash;
  comment_UnixTime : Timestamp;
}.

(** Modelled from the spec: the timeline items are declared in a file that
    is not among the files verified here.  A create-item and a comment-item
    wrap a comment and carry an edit history, "the original plus one entry
    per subsequent edit_comment applied to them"; the test of
    [EditCommentOperation.Apply] reads that history as the field [History]
    of [CreateTimelineItem] and [AddCommentTimelineItem]. *)
Record CommentHistoryStep : Type := mkCommentHistoryStep {
  step_Message : string;
  step_UnixTime : Timestamp;
}.

Record CommentTimelineItem : Type := mkCommentTimelineItem {
  item_hash : Hash;
  item_Author : option string;
  item_Message : string;
  item_Files : list Hash;
  item_CreatedAt : Timestamp;
  item_LastEdit : Timestamp;
  History : list CommentHistoryStep;
}.

(** The dynamic types a [TimelineItem] interface value can have.  Both
    [CreateTimelineItem] and [AddCommentTimelineItem] embed a
    [CommentTimelineItem]; a pointer to the embedded struct alone is a
    third, distinct dynamic type, the one the first type switch of
    [EditCommentOperation.Apply] names. *)
Inductive TimelineItem : Type :=
  | CreateTimelineItem (c : CommentTimelineItem)
  | AddCommentTimelineItem (c : CommentTimelineItem)
  | PlainCommentTimelineItem (c : CommentTimelineItem)
  | SetTitleTimelineItem (hash : Hash) (title : string)
  | SetStatusTimelineItem (hash : Hash) (status : Status)
  | LabelChangeTimelineItem (hash : Hash) (added removed : list string).

(** [TimelineItem.Hash] *)
Definition TimelineItem_Hash (item : TimelineItem) : Hash :=
  match item with
  | CreateTimelineItem c | AddCommentTimelineItem c
  | PlainCommentTimelineItem c => item_hash c
  | SetTitleTimelineItem h _ | SetStatusTimelineItem h _
  | LabelChangeTimelineItem h _ _ => h
  end.

(** Modelled from the spec: [NewCommentTimelineItem] wraps the comment and
    seeds the history with the original. *)
Definition NewCommentTimelineItem (hash : Hash) (comment : Comment)
    : CommentTimelineItem :=
  {| item_hash := hash;
     item_Author := comment_Author comment;
     item_Message := comment_Message comment;
     item_Files := comment_Files comment;
     item_CreatedAt := comment_UnixTime comment;
     item_LastEdit := comment_UnixTime comment;
     History := [ {| step_Message := comment_Message comment;
                     step_UnixTime := comment_UnixTime comment |} ] |}.

(** Modelled from the spec: [CommentTimelineItem.Append] records a new
    revision at the end of the edit history. *)
Definition Append (item : CommentTimelineItem) (comment : Comment)
    : CommentTimelineItem :=
  {| item_hash := item_hash item;
     item_Author := item_Author item;
     item_Message := comment_Message comment;
     item_Files := comment_Files comment;
     item_CreatedAt := item_CreatedAt item;
     item_LastEdit := comment_UnixTime comment;
     History := History item ++
                [ {| step_Message := comment_Message comment;
                     step_UnixTime := comment_UnixTime comment |} ] |}.

Record Snapshot : Type := mkSnapshot {
  snap_Status : Status;
  snap_Title : string;
  snap_Comments : list Comment;
  snap_Labels : list string;
  snap_Author : option string;
  snap_CreatedAt : Timestamp;
  snap_Timeline : list TimelineItem;
}.

(** No error value is returned by [Apply]; it can only panic. *)
Definition applied : Type := outcome Empty_set Snapshot.

(** *** [EditCommentOperation.Apply] *)

(** The first [switch] of the loop: the dynamic types that advance the
    index in [snapshot.Comments]. *)
Definition tracks_comment (item : TimelineItem) : bool :=
  match item with
  | CreateTimelineItem _ | PlainCommentTimelineItem _ => true
  | _ => false
  end.

(** The loop over [snapshot.Timeline], entered at position [i] with the
    current [commentIndex]: the position of the first item whose hash is
    the target, the item, and the value of [commentIndex] at the [break].
    [None] when the loop runs to its end, leaving [target] nil. *)
Fixpoint find_target (target : Hash) (timeline : list TimelineItem)
    (i commentIndex : nat) : option (nat * TimelineItem * nat) :=
  match timeline with
  | [] => None
  | item :: rest =>
      if bool_decide (TimelineItem_Hash item = target)
      then Some (i, item, commentIndex)
      else find_target target rest (S i)
             (if tracks_comment item then S commentIndex else commentIndex)
  end.

(** The second [switch]: the items that receive the revision.  The item
    is a pointer shared with the timeline, so the timeline sees the
    change. *)
Definition append_revision (target : TimelineItem) (comment : Comment)
    : TimelineItem :=
  match target with
  | CreateTimelineItem item => CreateTimelineItem (Append item comment)
  | AddCommentTimelineItem item => AddCommentTimelineItem (Append item comment)
  | other => other
  end.

Definition set_message_files (c : Comment) (message : string)
    (files : list Hash) : Comment :=
  {| comment_Author := comment_Author c;
     comment_Message := message;
     comment_Files := files;
     comment_UnixTime := comment_UnixTime c |}.

Definition EditComment_Apply (op : EditCommentOperation)
    (snapshot : Snapshot) : applied :=
  match find_target (edit_Target op) (snap_Timeline snapshot) 0 0 with
  | None => Return snapshot
  | Some (i, target, commentIndex) =>
      let comment :=
        {| comment_Author := None;
           comment_Message := edit_Message op;
           comment_Files := edit_Files op;
           comment_UnixTime := UnixTime (edit_base op) |} in
      let timeline := <[i := append_revision target comment]>
                        (snap_Timeline snapshot) in
      match snap_Comments snapshot !! commentIndex with
      | None => Panicked "index out of range"
      | Some c =>
          Return
            {| snap_Status := snap_Status snapshot;
               snap_Title := snap_Title snapshot;
               snap_Comments :=
                 <[commentIndex :=
                     set_message_files c (edit_Message op) (edit_Files op)]>
                   (snap_Comments snapshot);
               snap_Labels := snap_Labels snapshot;
               snap_Author := snap_Author snapshot;
               snap_CreatedAt := snap_CreatedAt snapshot;
               snap_Timeline := timeline |}
      end
  end.

(** *** [CreateOperation] *)

Inductive error : Type :=
  | ErrOpBase (msg : string)
  | ErrTitleEmpty
  | ErrTitleNotSingleLine
  | ErrTitleNotPrintable
  | ErrMessageNotPrintable.

(** The text of the error, as given to [fmt.Errorf]. *)
Definition error_text (e : error) : string :=
  match e with
  | ErrOpBase msg => msg
  | ErrTitleEmpty => "title is empty"
  | ErrTitleNotSingleLine => "title should be a single line"
  | ErrTitleNotPrintable => "title is not fully printable"
  | ErrMessageNotPrintable => "message is not fully printable"
  end.

(** [strings.Contains] *)
Fixpoint strings_Contains (s substr : string) : bool :=
  String.prefix substr s ||
  match s with
  | EmptyString => false
  | String _ s' => strings_Contains s' substr
  end.

Definition newline : string := String "010"%char EmptyString.

Section Validate.
(** [opBaseValidate], [text.Empty] and [text.Safe] are declared in files
    that are not verified here: they are parameters of the embedding. *)
Variable opBaseValidate : OpBase → OperationType → option string.
Variable text_Empty : string → bool.
Variable text_Safe : string → bool.

(** [CreateOperation.Validate]; [None] is the nil error. *)
Definition Create_Validate (op : CreateOperation) : option error :=
  match opBaseValidate (create_base op) CreateOp with
  | Some msg => Some (ErrOpBase msg)
  | None =>
      if text_Empty (create_Title op) then Some ErrTitleEmpty
      else if strings_Contains (create_Title op) newline
        then Some ErrTitleNotSingleLine
      else if negb (text_Safe (create_Title op))
        then Some ErrTitleNotPrintable
      else if negb (text_Safe (create_Message op))
        then Some ErrMessageNotPrintable
      else None
  end.
End Validate.

(** Modelled from the spec: the [add_comment] operation, declared in a
    file that is not among the files verified here, carries a message and
    files; applying it appends a comment, and a comment-item to the
    timeline. *)
Record AddCommentOperation : Type := mkAddCommentOperation {
  add_base : OpBase;
  add_Message : string;
  add_Files : list Hash;
}.

Section Apply.
(** [hashOperation] serialises the operation and hashes the bytes; it is
    declared in a file that is not verified here.  [None] is a non-nil
    error. *)
Variable hashCreate : CreateOperation → option Hash.
Variable hashAddComment : AddCommentOperation → option Hash.

(** [CreateOperation.Apply] *)
Definition Create_Apply (op : CreateOperation) (snapshot : Snapshot)
    : applied :=
  let comment :=
    {| comment_Author := Author (create_base op);
       comment_Message := create_Message op;
       comment_Files := [];
       comment_UnixTime := UnixTime (create_base op) |} in
  match hashCreate op with
  | None => Panicked "hash"
  | Some hash =>
      Return
        {| snap_Status := snap_Status snapshot;
           snap_Title := create_Title op;
           snap_Comments := [comment];
           snap_Labels := snap_Labels snapshot;
           snap_Author := Author (create_base op);
           snap_CreatedAt := UnixTime (create_base op);
           snap_Timeline :=
             [CreateTimelineItem (NewCommentTimelineItem hash comment)] |}
  end.

(** Modelled from the spec: [AddCommentOperation.Apply]. *)
Definition AddComment_Apply (op : AddCommentOperation)
    (snapshot : Snapshot) : applied :=
  let comment :=
    {| comment_Author := Author (add_base op);
       comment_Message := add_Message op;
       comment_Files := add_Files op;
       comment_UnixTime := UnixTime (add_base op) |} in
  match hashAddComment op with
  | None => Panicked "hash"
  | Some hash =>
      Return
        {| snap_Status := snap_Status snapshot;
           snap_Title := snap_Title snapshot;
           snap_Comments := snap_Comments snapshot ++ [comment];
           snap_Labels := snap_Labels snapshot;
           snap_Author := snap_Author snapshot;
           snap_CreatedAt := snap_CreatedAt snapshot;
           snap_Timeline :=
             snap_Timeline snapshot ++
             [AddCommentTimelineItem (NewCommentTimelineItem hash comment)] |}
  end.
End Apply.

(** *** What the specification says of [edit_comment] *)

(** An item that wraps a comment: a create-item or a comment-item. *)
Definition wraps_comment (item : TimelineItem) : bool :=
  match item with
  | CreateTimelineItem _ | AddCommentTimelineItem _ => true
  | _ => false
  end.

(** The position in [comments] of the comment that the timeline item at
    position [i] wraps: the number of create and comment items before
    it. *)
Definition comment_position (timeline : list TimelineItem) (i : nat) : nat :=
  length (filter (λ item, wraps_comment item = true) (take i timeline)).

(** The edit history of an item, empty for the items that have none. *)
Definition history_of (item : TimelineItem) : list CommentHistoryStep :=
  match item with
  | CreateTimelineItem c | AddCommentTimelineItem c
  | PlainCommentTimelineItem c => History c
  | _ => []
  end.

(** An item that embeds a [CommentTimelineItem], whatever its dynamic
    type. *)
Definition carries_comment (item : TimelineItem) : bool :=
  match item with
  | CreateTimelineItem _ | AddCommentTimelineItem _
  | PlainCommentTimelineItem _ => true
  | _ => false
  end.

(** The snapshots in which every item that carries a comment has its
    comment in [Comments]. *)
Definition comments_in_step (snapshot : Snapshot) : Prop :=
  length (filter (λ item, carries_comment item = true)
                 (snap_Timeline snapshot))
  = length (snap_Comments snapshot).

End bug.

(** ** Package cache *)

Module cache.

(** *** Excerpts *)

(** Modelled from the spec: [BugExcerpt] is declared in a file that is not
    among the files verified here; its fields are the ones the spec lists
    (the human id is computed from [Id]). *)
Record BugExcerpt : Type := mkBugExcerpt {
  Id : string;
  AuthorId : string;
  CreateTime : N;
  EditTime : N;
  Status : bug.Status;
  Labels : list string;
  Title : string;
  LenComments : nat;
  CreateMetadata : gmap string string;
}.

Record IdentityExcerpt : Type := mkIdentityExcerpt {
  IdentityExcerpt_Id : string;
  IdentityExcerpt_Name : string;
  IdentityExcerpt_Login : string;
  ImmutableMetadata : gmap string string;
}.

Inductive error : Type :=
  | ErrBugNotExist
  | ErrMultipleMatch (Matching : list string)
  | ErrRepo (msg : string)
  | ErrOpen (msg : string)
  | ErrLockFileSize
  | ErrAtoi (input : string)
  | ErrLocked (pid : Z)
  | ErrCreate (msg : string)
  | ErrWrite (msg : string)
  | ErrClose (msg : string).

(** [IdentityExcerpt.DisplayName] *)
Definition IdentityExcerpt_DisplayName (i : IdentityExcerpt)
    : outcome error string :=
  let name := IdentityExcerpt_Name i in
  let login := IdentityExcerpt_Login i in
  if is_empty name && negb (is_empty login) then Return login
  else if negb (is_empty name) && is_empty login then Return name
  else if negb (is_empty name) && negb (is_empty login)
    then Return (identity.sprintf_name_login name login)
  else Panicked "invalid person data".

(** *** Queries *)

Inductive OrderBy : Type :=
  | OrderById | OrderByCreation | OrderByEdit
  | OrderByOther (n : Z).

Inductive OrderDirection : Type := OrderAscending | OrderDescending.

(** Modelled from the spec: [Query] and [Query.Match] are declared in a
    file that is not among the files verified here.  A query is "a
    structured predicate + ordering spec"; the conjunction of its filter
    clauses is kept as the predicate it denotes on excerpts. *)
Record Query : Type := mkQuery {
  Filters : BugExcerpt → bool;
  Query_OrderBy : OrderBy;
  Query_OrderDirection : OrderDirection;
}.

Definition Query_Match (q : Query) (excerpt : BugExcerpt) : bool :=
  Filters q excerpt.

(** Modelled from the spec: the default query, [status:open] ordered by
    edit time, descending. *)
Definition default_query : Query :=
  {| Filters := λ e, bool_decide (Status e = bug.OpenStatus);
     Query_OrderBy := OrderByEdit;
     Query_OrderDirection := OrderDescending |}.

(** Modelled from the spec: the [Less] methods of the three sorters
    [BugsById], [BugsByCreationTime] and [BugsByEditTime]. *)
Definition BugsById_Less (a b : BugExcerpt) : bool :=
  String.ltb (Id a) (Id b).
Definition BugsByCreationTime_Less (a b : BugExcerpt) : bool :=
  (CreateTime a <? CreateTime b)%N.
Definition BugsByEditTime_Less (a b : BugExcerpt) : bool :=
  (EditTime a <? EditTime b)%N.

(** [sort.Reverse] *)
Definition sort_Reverse {A} (less : A → A → bool) : A → A → bool :=
  λ a b, less b a.

(** [sort.Sort] puts the slice in an order where no element is [Less]
    than one before it; the order among elements that compare equal is not
    specified by the library, and a merge sort stands for it here. *)
Definition sort_Sort {A} (less : A → A → bool) (l : list A) : list A :=
  @merge_sort A (λ a b, less b a = false)
    (λ a b, decide (less b a = false)) l.

(** *** The repository cache *)

Section RepoCache.
(** The bug aggregate and [bug.ReadLocalBug] are declared in files that
    are not verified here: they are parameters of the embedding. *)
Variable Bug : Type.
Variable ReadLocalBug : string → outcome error Bug.

(** Go leaves the order in which [range] visits a map unspecified: the
    order is a parameter.  What is proved of it assumes that it visits
    every entry once, [range m ≡ₚ map_to_list m]. *)
Variable range : gmap string BugExcerpt → list (string * BugExcerpt).

Record BugCache : Type := NewBugCache { bugcache_bug : Bug }.

Record RepoCache : Type := mkRepoCache {
  excerpts : gmap string BugExcerpt;
  bugs : gmap string BugCache;
}.

(** [RepoCache.ResolveBug]: the result, and the cache once the bug is
    loaded in memory. *)
Definition ResolveBug (c : RepoCache) (id : string)
    : outcome error BugCache * RepoCache :=
  match bugs c !! id with
  | Some cached => (Return cached, c)
  | None =>
      match ReadLocalBug id with
      | Return b =>
          let cached := NewBugCache b in
          (Return cached,
           {| excerpts := excerpts c; bugs := <[id := cached]> (bugs c) |})
      | Failure e => (Failure e, c)
      | Panicked msg => (Panicked msg, c)
      end
  end.

(** The loop of both resolutions: the ids of the entries that satisfy
    [matches], appended in the order of the visit. *)
Definition collect_matching (matches : string → BugExcerpt → bool)
    (c : RepoCache) : list string :=
  foldl (λ matching entry,
           if matches entry.1 entry.2 then matching ++ [entry.1]
           else matching)
        [] (range (excerpts c)).

Definition resolve_matching (c : RepoCache) (matching : list string)
    : outcome error BugCache * RepoCache :=
  if bool_decide (1 < length matching)
  then (Failure (ErrMultipleMatch matching), c)
  else match matching with
       | [] => (Failure ErrBugNotExist, c)
       | id :: _ => ResolveBug c id
       end.

(** [strings.HasPrefix(id, prefix)] *)
Definition strings_HasPrefix (s prefix : string) : bool :=
  String.prefix prefix s.

(** [RepoCache.ResolveBugPrefix] *)
Definition ResolveBugPrefix (c : RepoCache) (prefix : string)
    : outcome error BugCache * RepoCache :=
  resolve_matching c
    (collect_matching (λ id _, strings_HasPrefix id prefix) c).

(** [excerpt.CreateMetadata[key] == value]: a key that is absent reads
    as the empty string. *)
Definition has_create_metadata (key value : string)
    (excerpt : BugExcerpt) : bool :=
  bool_decide (default "" (CreateMetadata excerpt !! key) = value).

(** [RepoCache.ResolveBugCreateMetadata] *)
Definition ResolveBugCreateMetadata (c : RepoCache) (key value : string)
    : outcome error BugCache * RepoCache :=
  resolve_matching c
    (collect_matching (λ _ excerpt, has_create_metadata key value excerpt) c).

(** The entries of the excerpt map that satisfy [matches], and the
    multiplicity rules of the specification for a resolution that
    returns [result]: not found when no id matches, ambiguous with the
    full list of matches when more than one does, and the resolution of
    the id when it is the only match. *)
Definition matching_excerpts (matches : string → BugExcerpt → bool)
    (c : RepoCache) : gmap string BugExcerpt :=
  filter (λ entry, matches entry.1 entry.2 = true) (excerpts c).

Definition multiplicity_rules (matches : string → BugExcerpt → bool)
    (c : RepoCache) (result : outcome error BugCache * RepoCache) : Prop :=
  let found := matching_excerpts matches c in
  (size found = 0 → result = (Failure ErrBugNotExist, c)) ∧
  (1 < size found →
     ∃ matching, result = (Failure (ErrMultipleMatch matching), c) ∧
                 matching ≡ₚ elements (dom found)) ∧
  (size found = 1 →
     ∃ id, dom found = {[id]} ∧ result = ResolveBug c id).

(** [RepoCache.AllBugsIds] *)
Definition AllBugsIds (c : RepoCache) : list string :=
  (λ entry, Id entry.2) <$> range (excerpts c).

(** [RepoCache.QueryBugs]; [None] is the nil query. *)
Definition QueryBugs (c : RepoCache) (query : option Query)
    : outcome error (list string) :=
  match query with
  | None => Return (AllBugsIds c)
  | Some q =>
      let filtered :=
        foldl (λ filtered entry,
                 if Query_Match q entry.2 then filtered ++ [entry.2]
                 else filtered)
              [] (range (excerpts c)) in
      let* less :=
        match Query_OrderBy q with
        | OrderById => Return BugsById_Less
        | OrderByCreation => Return BugsByCreationTime_Less
        | OrderByEdit => Return BugsByEditTime_Less
        | OrderByOther _ => Panicked "missing sort type"
        end in
      let less :=
        match Query_OrderDirection q with
        | OrderDescending => sort_Reverse less
        | OrderAscending => less
        end in
      Return (Id <$> sort_Sort less filtered)
  end.
End RepoCache.

Arguments NewBugCache {Bug} _.
Arguments bugcache_bug {Bug} _.
Arguments mkRepoCache {Bug} _ _.
Arguments excerpts {Bug} _.
Arguments bugs {Bug} _.
Arguments ResolveBug {Bug} _ _ _.
Arguments collect_matching {Bug} _ _ _.
Arguments resolve_matching {Bug} _ _ _.
Arguments ResolveBugPrefix {Bug} _ _ _ _.
Arguments ResolveBugCreateMetadata {Bug} _ _ _ _ _.
Arguments matching_excerpts {Bug} _ _.
Arguments multiplicity_rules {Bug} _ _ _ _.
Arguments AllBugsIds {Bug} _ _.
Arguments QueryBugs {Bug} _ _ _.

(** *** The lock file *)

(** The lock file as [os.Open] finds it. *)
Inductive file : Type :=
  | NoFile
  | Unreadable (msg : string)
  | File (content : string).

(** What the lock functions see of the operating system: the lock file,
    the process table behind [process.IsRunning] (declared in a file that
    is not verified here), the pid of the calling process, and what the
    file system answers when [lock] writes the file: the error of
    [os.Create], of [f.WriteString] (with the number of bytes that went to
    the file before the error) and of [f.Close], [None] when the call
    succeeds.  Reading the file that [os.Open] has opened, closing it and
    removing it are taken to succeed. *)
Record OS : Type := mkOS {
  lockfile : file;
  IsRunning : Z → bool;
  Getpid : Z;
  Create_error : option string;
  WriteString_error : option (nat * string);
  Close_error : option string;
}.

Definition with_lockfile (os : OS) (f : file) : OS :=
  {| lockfile := f; IsRunning := IsRunning os; Getpid := Getpid os;
     Create_error := Create_error os;
     WriteString_error := WriteString_error os;
     Close_error := Close_error os |}.

Definition digit_value (c : ascii) : option Z :=
  let n := Z.of_nat (nat_of_ascii c) in
  if bool_decide (48 ≤ n ≤ 57)%Z then Some (n - 48)%Z else None.

Fixpoint parse_digits (n : Z) (s : string) : option Z :=
  match s with
  | EmptyString => Some n
  | String ch s' =>
      match digit_value ch with
      | Some d => parse_digits (n * 10 + d) s'
      | None => None
      end
  end.

Definition in_int_range (n : Z) : option Z :=
  if bool_decide (- 2 ^ 63 ≤ n < 2 ^ 63)%Z then Some n else None.

(** [strconv.Atoi]: an optional sign followed by at least one decimal
    digit, within the range of [int]; [None] is a non-nil error. *)
Definition Atoi (s : string) : option Z :=
  match s with
  | EmptyString => None
  | String ch rest =>
      if bool_decide (ch = "-"%char) then
        if is_empty rest then None
        else n ← parse_digits 0 rest; in_int_range (- n)
      else if bool_decide (ch = "+"%char) then
        if is_empty rest then None
        else n ← parse_digits 0 rest; in_int_range n
      else n ← parse_digits 0 s; in_int_range n
  end.

(** [ioutil.ReadAll(io.LimitReader(f, 10))] *)
Definition read_limited (limit : nat) (content : string) : string :=
  String.substring 0 limit content.

(** [repoIsAvailable]: the error ([None] for nil) and the state of the
    system afterwards. *)
Definition repoIsAvailable (os : OS) : option error * OS :=
  match lockfile os with
  | Unreadable msg => (Some (ErrOpen msg), os)
  | NoFile => (None, os)
  | File content =>
      let buf := read_limited 10 content in
      if bool_decide (String.length buf = 10) then (Some ErrLockFileSize, os)
      else
        match Atoi buf with
        | None => (Some (ErrAtoi buf), os)
        | Some pid =>
            if IsRunning os pid then (Some (ErrLocked pid), os)
            else (None, with_lockfile os NoFile)
        end
  end.

(** [fmt.Sprintf("%d", pid)] *)
Definition sprintf_d (n : Z) : string := pretty n.

(** [RepoCache.lock].  [os.Create] creates the file, or truncates the one
    that is there; each of the three calls that write the file returns its
    error to the caller, with the file as the call has left it. *)
Definition lock (os : OS) : option error * OS :=
  match repoIsAvailable os with
  | (Some err, os') => (Some err, os')
  | (None, os') =>
      match Create_error os' with
      | Some msg => (Some (ErrCreate msg), os')
      | None =>
          let pid := sprintf_d (Getpid os') in
          match WriteString_error os' with
          | Some (n, msg) =>
              (Some (ErrWrite msg),
               with_lockfile os' (File (String.substring 0 n pid)))
          | None =>
              match Close_error os' with
              | Some msg =>
                  (Some (ErrClose msg), with_lockfile os' (File pid))
              | None => (None, with_lockfile os' (File pid))
              end
          end
      end
  end.

(** *** Labels in use *)

Section ValidLabels.
Variable Bug : Type.
Variable range : gmap string BugExcerpt → list (string * BugExcerpt).
(** The order in which [range] visits the set of labels; as for the
    excerpts, what is proved of it assumes that it visits every label
    once. *)
Variable range_labels : gset string → list string.

(** The two nested loops that fill [set]. *)
Definition labels_in_use (c : RepoCache Bug) : gset string :=
  foldl (λ set entry,
           foldl (λ set l, {[l]} ∪ set) set (Labels entry.2))
        ∅ (range (excerpts c)).

(** [RepoCache.ValidLabels]: the labels of the set, then [sort.Slice]
    with [<] on strings. *)
Definition ValidLabels (c : RepoCache Bug) : list string :=
  sort_Sort String.ltb (range_labels (labels_in_use c)).
End ValidLabels.

Arguments labels_in_use {Bug} _ _.
Arguments ValidLabels {Bug} _ _ _.

(** *** The order of the result of a query *)

(** What the sorter that [QueryBugs] selects for [q] guarantees of two
    excerpts that follow each other in the result. *)
Definition in_query_order (q : Query) (a b : BugExcerpt) : Prop :=
  match Query_OrderBy q, Query_OrderDirection q with
  | OrderById, OrderAscending => String.leb (Id a) (Id b) = true
  | OrderById, OrderDescending => String.leb (Id b) (Id a) = true
  | OrderByCreation, OrderAscending => (CreateTime a ≤ CreateTime b)%N
  | OrderByCreation, OrderDescending => (CreateTime b ≤ CreateTime a)%N
  | OrderByEdit, OrderAscending => (EditTime a ≤ EditTime b)%N
  | OrderByEdit, OrderDescending => (EditTime b ≤ EditTime a)%N
  | OrderByOther _, _ => True
  end.

(** *** Resolving an operation by its metadata *)

Inductive target_error : Type :=
  | ErrNoMatchingOp
  | ErrMultipleMatchOp (Matching : list bug.Hash)
  | ErrHash (msg : string).

Section ResolveTargetWithMetadata.
(** The operations of a bug, with [Operation.GetMetadata] and
    [Operation.Hash], are declared in files that are not verified here:
    they are parameters of the embedding.  [GetMetadata] returns the
    value and whether the key is present, [Hash] the hash or an
    error. *)
Variable Operation : Type.
Variable GetMetadata : Operation → string → option string.
Variable Operation_Hash : Operation → string + bug.Hash.

(** The loop over the operations of the bug, in their order, with the
    hashes collected so far. *)
Fixpoint collect_targets (key value : string) (matching : list bug.Hash)
    (operations : list Operation) : outcome target_error (list bug.Hash) :=
  match operations with
  | [] => Return matching
  | op :: rest =>
      match GetMetadata op key with
      | Some opValue =>
          if bool_decide (value = opValue) then
            match Operation_Hash op with
            | inl msg => Failure (ErrHash msg)
            | inr h => collect_targets key value (matching ++ [h]) rest
            end
          else collect_targets key value matching rest
      | None => collect_targets key value matching rest
      end
  end.

(** [BugCache.ResolveTargetWithMetadata], on the operations of the
    bug. *)
Definition ResolveTargetWithMetadata (operations : list Operation)
    (key value : string) : outcome target_error bug.Hash :=
  let* matching := collect_targets key value [] operations in
  match matching with
  | [] => Failure ErrNoMatchingOp
  | [h] => Return h
  | _ => Failure (ErrMultipleMatchOp matching)
  end.
End ResolveTargetWithMetadata.

(** *** Excerpts of identities *)

Section NewIdentityExcerpt.
(** [Identity.ImmutableMetadata] is declared in a file that is not
    verified here: it is a parameter of the embedding. *)
Variable Identity_ImmutableMetadata : identity.Identity → gmap string string.

(** [NewIdentityExcerpt]: the fields are evaluated in the order of the
    literal, and the accessors of the identity can panic. *)
Definition NewIdentityExcerpt (i : identity.Identity)
    : outcome identity.error IdentityExcerpt :=
  let* id := identity.Identity_Id i in
  let* name := identity.Identity_Name i in
  let* login := identity.Identity_Login i in
  Return {| IdentityExcerpt_Id := id;
            IdentityExcerpt_Name := name;
            IdentityExcerpt_Login := login;
            ImmutableMetadata := Identity_ImmutableMetadata i |}.
End NewIdentityExcerpt.

(** Two outcomes, possibly with errors of different types, that are the
    same value or the same panic. *)
Definition same_outcome {E1 E2 A} (m1 : outcome E1 A) (m2 : outcome E2 A)
    : Prop :=
  match m1, m2 with
  | Return a1, Return a2 => a1 = a2
  | Panicked msg1, Panicked msg2 => msg1 = msg2
  | _, _ => False
  end.

End cache.

(** ** Sample data *)

Module samples.

(** *** Identities *)

Definition key_a : identity.Key :=
  {| identity.Fingerprint := "AAAA"; identity.PubKey := "pub-a" |}.
Definition key_b : identity.Key :=
  {| identity.Fingerprint := "BBBB"; identity.PubKey := "pub-b" |}.

Definition version (name login : string) (keys : list identity.Key)
    (time : N) : identity.Version :=
  {| identity.Name := name; identity.Email := "rene@descartes.fr";
     identity.Login := login; identity.AvatarUrl := "";
     identity.Keys := keys; identity.Nonce := [];
     identity.UnixTime := 0; identity.Time := time;
     identity.commitHash := "" |}.

(** Two versions, at logical times 3 and 7. *)
Definition rene : identity.Identity :=
  {| identity.id := "0123";
     identity.Versions :=
       [version "René Descartes" "" [key_a] 3;
        version "René Descartes" "rene" [key_a; key_b] 7] |}.

Definition rene_excerpt : cache.IdentityExcerpt :=
  {| cache.IdentityExcerpt_Id := "0123";
     cache.IdentityExcerpt_Name := "René Descartes";
     cache.IdentityExcerpt_Login := "rene";
     cache.ImmutableMetadata := ∅ |}.

(** A version validation that accepts every version. *)
Definition accept_all : identity.Version → option string := λ _, None.

(** *** Operations and snapshots *)

Definition header (type : bug.OperationType) : bug.OpBase :=
  {| bug.OpType := type; bug.Author := Some "0123";
     bug.UnixTime := 1560000000; bug.Metadata := ∅ |}.

Definition create (title message : string) : bug.CreateOperation :=
  {| bug.create_base := header bug.CreateOp; bug.create_Title := title;
     bug.create_Message := message; bug.create_Files := [] |}.

Definition comment (message : string) : bug.AddCommentOperation :=
  {| bug.add_base := header bug.AddCommentOp; bug.add_Message := message;
     bug.add_Files := [] |}.

Definition edit (target : bug.Hash) (message : string)
    : bug.EditCommentOperation :=
  {| bug.edit_base := header bug.EditCommentOp; bug.edit_Target := target;
     bug.edit_Message := message; bug.edit_Files := [] |}.

(** A stand-in for the hash of an operation: operations with distinct
    messages get distinct hashes. *)
Definition hashCreate (op : bug.CreateOperation) : option bug.Hash :=
  Some ("create/" +:+ bug.create_Message op).
Definition hashAddComment (op : bug.AddCommentOperation) : option bug.Hash :=
  Some ("comment/" +:+ bug.add_Message op).

Definition empty_snapshot : bug.Snapshot :=
  {| bug.snap_Status := bug.OpenStatus; bug.snap_Title := "";
     bug.snap_Comments := []; bug.snap_Labels := [];
     bug.snap_Author := None; bug.snap_CreatedAt := 0%Z;
     bug.snap_Timeline := [] |}.

(** The snapshot of the test of [EditCommentOperation.Apply]: a bug is
    created and commented once. *)
Definition commented_once : bug.applied :=
  let* s := bug.Create_Apply hashCreate (create "title" "create")
              empty_snapshot in
  bug.AddComment_Apply hashAddComment (comment "comment") s.

(** A bug that is created and commented twice. *)
Definition commented_twice : bug.applied :=
  let* s := bug.Create_Apply hashCreate (create "title" "create")
              empty_snapshot in
  let* s := bug.AddComment_Apply hashAddComment (comment "first") s in
  bug.AddComment_Apply hashAddComment (comment "second") s.

(** The comment that the sample operations with this message write. *)
Definition written (message : string) : bug.Comment :=
  {| bug.comment_Author := Some "0123"; bug.comment_Message := message;
     bug.comment_Files := []; bug.comment_UnixTime := 1560000000%Z |}.

(** A bug that was created and closed. *)
Definition closed_bug : bug.Snapshot :=
  {| bug.snap_Status := bug.ClosedStatus; bug.snap_Title := "title";
     bug.snap_Comments := [written "create"];
     bug.snap_Labels := []; bug.snap_Author := Some "0123";
     bug.snap_CreatedAt := 1560000000%Z;
     bug.snap_Timeline :=
       [ bug.CreateTimelineItem
           (bug.NewCommentTimelineItem "create/create" (written "create"));
         bug.SetStatusTimelineItem "status/closed" bug.ClosedStatus ] |}.

Definition messages (s : bug.applied) : option (list string) :=
  match s with
  | Return s => Some (bug.comment_Message <$> bug.snap_Comments s)
  | _ => None
  end.

Definition history_lengths (s : bug.applied) : option (list nat) :=
  match s with
  | Return s => Some ((length ∘ bug.history_of) <$> bug.snap_Timeline s)
  | _ => None
  end.

(** *** Validation of the header and of text *)

(** A header validation: the type is the expected one, the time is set
    and there is an author. *)
Definition opBaseValidate (base : bug.OpBase) (type : bug.OperationType)
    : option string :=
  if negb (bool_decide (bug.OpType base = type))
  then Some "incorrect operation type"
  else if bool_decide (bug.UnixTime base = 0%Z)
  then Some "time not set"
  else if bool_decide (bug.Author base = None)
  then Some "author not set"
  else None.

Definition is_control (c : ascii) : bool :=
  let n := nat_of_ascii c in (n <? 32) || (n =? 127).

Definition is_blank (c : ascii) : bool :=
  let n := nat_of_ascii c in is_control c || (n =? 32).

(** Text functions for strings of ASCII characters: a string is safe when
    its only control characters are tabs, carriage returns and newlines; it
    is empty when nothing but blanks and control characters is in it. *)
Definition text_Safe (s : string) : bool :=
  forallb (λ c, negb (is_control c) ||
                bool_decide (c ∈ ["009"; "010"; "013"]%char))
          (String.list_ascii_of_string s).

Definition text_Empty (s : string) : bool :=
  forallb is_blank (String.list_ascii_of_string s).

(** *** A repository cache *)

Definition excerpt (id : string) (status : bug.Status) (edit : N)
    (metadata : gmap string string) : cache.BugExcerpt :=
  {| cache.Id := id; cache.AuthorId := "0123"; cache.CreateTime := 1;
     cache.EditTime := edit; cache.Status := status; cache.Labels := [];
     cache.Title := "login broken"; cache.LenComments := 1;
     cache.CreateMetadata := metadata |}.

(** Three bugs: two are open, the one edited last is closed. *)
Definition three_bugs : cache.RepoCache unit :=
  {| cache.excerpts :=
       <["1a2b" := excerpt "1a2b" bug.OpenStatus 5 {["origin" := "github"]}]>
       (<["1a7f" := excerpt "1a7f" bug.ClosedStatus 9 {["origin" := "github"]}]>
       (<["c3d4" := excerpt "c3d4" bug.OpenStatus 2 {["origin" := "gitlab"]}]>
        ∅));
     cache.bugs := ∅ |}.

(** A single closed bug. *)
Definition one_closed_bug : cache.RepoCache unit :=
  {| cache.excerpts := {["1a7f" := excerpt "1a7f" bug.ClosedStatus 9 ∅]};
     cache.bugs := ∅ |}.

(** Two bugs with labels. *)
Definition labelled (id : string) (labels : list string)
    : cache.BugExcerpt :=
  {| cache.Id := id; cache.AuthorId := "0123"; cache.CreateTime := 1;
     cache.EditTime := 1; cache.Status := bug.OpenStatus;
     cache.Labels := labels; cache.Title := "login broken";
     cache.LenComments := 1; cache.CreateMetadata := ∅ |}.

Definition labelled_bugs : cache.RepoCache unit :=
  {| cache.excerpts :=
       <["1a2b" := labelled "1a2b" ["ui"; "bug"]]>
       (<["c3d4" := labelled "c3d4" ["bug"; "crash"]]> ∅);
     cache.bugs := ∅ |}.

(** The operations of a bug, each with its metadata and its hash. *)
Definition imported_operations : list (gmap string string * string) :=
  [ ({["github-id" := "17"]}, "create/17");
    (∅, "comment/local");
    ({["github-id" := "23"]}, "comment/23") ].

(** Every bug can be read from the repository. *)
Definition ReadLocalBug (id : string) : outcome cache.error unit := Return ().

(** *** Lock files *)

(** The calling process is 4242, the only one alive. *)
Definition system (f : cache.file) : cache.OS :=
  {| cache.lockfile := f;
     cache.IsRunning := λ pid, bool_decide (pid = 4242%Z);
     cache.Getpid := 4242;
     cache.Create_error := None;
     cache.WriteString_error := None;
     cache.Close_error := None |}.


(** A system with a process of pid [pid] calling, no process alive and a
    file system that accepts every write. *)
Definition system_of (pid : Z) (f : cache.file) : cache.OS :=
  {| cache.lockfile := f;
     cache.IsRunning := λ _, false;
     cache.Getpid := pid;
     cache.Create_error := None;
     cache.WriteString_error := None;
     cache.Close_error := None |}.

End samples.

(** * Properties *)

#[local] Set Warnings "-clear-no-such-hyp".

(** ** Identities *)

Module identity_properties.
Import identity.

(** The loop of [ValidKeysAtTime] leaves the accumulator alone when every
    remaining version is later than [t]. *)
Lemma ValidKeysAtTime_from_all_later result vs t :
  Forall (λ v, (t < Time v)%N) vs →
  ValidKeysAtTime_from result vs t = result.
Proof.
  destruct 1 as [|v vs Hv _]; simpl; [done|].
  by apply N.ltb_lt in Hv as ->.
Qed.

Lemma filter_all_later (vs : list Version) t :
  Forall (λ v, (t < Time v)%N) vs →
  filter (λ v, (Time v ≤ t)%N) vs = [].
Proof.
  induction 1 as [|v vs Hv _ IH]; [done|].
  rewrite filter_cons_False; [done | lia].
Qed.

(** On a chain with non-decreasing times, the loop returns the keys of the
    last version that is not later than [t], and its accumulator when there
    is none. *)
Lemma ValidKeysAtTime_from_latest result vs t :
  StronglySorted N.le (Time <$> vs) →
  ValidKeysAtTime_from result vs t =
    match last (filter (λ v, (Time v ≤ t)%N) vs) with
    | Some v => Keys v
    | None => result
    end.
Proof.
  revert result. induction vs as [|v vs IH]; intros result Hs; [done|].
  rewrite fmap_cons in Hs. apply StronglySorted_inv in Hs as [Hs Hv].
  simpl. destruct (N.ltb_spec t (Time v)) as [Hlt|Hle].
  - assert (Forall (λ w, (t < Time w)%N) (v :: vs)) as Hall.
    { constructor; [done|]. rewrite Forall_fmap in Hv.
      eapply Forall_impl; [exact Hv|]. simpl. intros w Hw. lia. }
    by rewrite (filter_all_later _ _ Hall).
  - rewrite IH by done. rewrite filter_cons_True by done.
    rewrite last_cons. by destruct (last _).
Qed.

(** C8.  On an identity whose versions have non-decreasing logical times,
    [ValidKeysAtTime] at [t] returns the keys of the latest version whose
    logical time is at most [t]; it returns no key when every version's
    logical time exceeds [t]. *)
Theorem ValidKeysAtTime_latest (i : Identity) (t : lamport_Time) :
  Sorted N.le (times i) →
  ValidKeysAtTime i t = keys_of_latest_version_at i t ∧
  (Forall (λ v, (t < Time v)%N) (Versions i) → ValidKeysAtTime i t = []).
Proof.
  intros Hs. split.
  - apply ValidKeysAtTime_from_latest.
    apply Sorted_StronglySorted; [|done]. intros x y z. apply N.le_trans.
  - apply ValidKeysAtTime_from_all_later.
Qed.

Lemma ValidKeysAtTime_latest_witness :
  Sorted N.le (times samples.rene) ∧
  ValidKeysAtTime samples.rene 5%N = [samples.key_a] ∧
  ValidKeysAtTime samples.rene 2%N = [].
Proof.
  assert (Sorted N.le (times samples.rene)) as Hs.
  { repeat constructor. vm_compute. discriminate. }
  split; [exact Hs|].
  destruct (ValidKeysAtTime_latest samples.rene 5%N Hs) as [-> _].
  destruct (ValidKeysAtTime_latest samples.rene 2%N Hs) as [_ ->].
  - split; reflexivity.
  - repeat constructor.
Defined.

(** *** Validation *)

Section Validate.
Variable Version_Validate : Version → option string.

Lemma Sorted_or_descent l : Sorted N.le l ∨ descent l.
Proof.
  induction l as [|a l [IH|(k & x & y & ? & ? & ?)]].
  - by left.
  - destruct l as [|b l].
    + left. by repeat constructor.
    + destruct (N.le_gt_cases a b) as [Hle|Hgt].
      * left. constructor; [done | by constructor].
      * right. by exists 0, a, b.
  - right. by exists (S k), x, y.
Qed.

Lemma descent_not_Sorted l : descent l → ¬ Sorted N.le l.
Proof.
  intros (k & a & b & Ha & Hb & Hlt). revert l Ha Hb.
  induction k as [|k IH]; intros [|x [|y l]] Ha Hb Hs; simplify_eq/=.
  - apply Sorted_inv in Hs as [_ Hhd]. apply HdRel_inv in Hhd. lia.
  - apply Sorted_inv in Hs as [Hs _]. by eapply IH.
Qed.

Lemma Validate_from_None lastTime vs :
  Validate_from Version_Validate lastTime vs = None ↔
  Forall (λ v, Version_Validate v = None) vs ∧
  Sorted N.le (lastTime :: (Time <$> vs)).
Proof.
  revert lastTime. induction vs as [|v vs IH]; intros lastTime; simpl.
  - split; [|done]. intros _. by repeat constructor.
  - destruct (Version_Validate v) as [msg|] eqn:Hv.
    { split; [done|]. intros [Hall _].
      apply Forall_cons in Hall as [? _]. congruence. }
    destruct (N.ltb_spec (Time v) lastTime) as [Hlt|Hle].
    { split; [done|]. intros [_ Hs].
      apply Sorted_inv in Hs as [_ Hhd]. apply HdRel_inv in Hhd. lia. }
    rewrite IH. split.
    + intros [Hall Hs]. split; [by constructor|].
      constructor; [done | by constructor].
    + intros [Hall Hs]. apply Forall_cons in Hall as [_ Hall].
      by apply Sorted_inv in Hs as [Hs _].
Qed.

Lemma Sorted_from_zero l : Sorted N.le (0%N :: l) ↔ Sorted N.le l.
Proof.
  split; [by intros [? _]%Sorted_inv|]. intros Hs.
  constructor; [done|]. destruct l; constructor. lia.
Qed.

Lemma Validate_None (i : Identity) :
  Validate Version_Validate i = None ↔
  Forall (λ v, Version_Validate v = None) (Versions i) ∧
  Sorted N.le (times i).
Proof.
  unfold Validate. rewrite Validate_from_None.
  by rewrite Sorted_from_zero.
Qed.

(** C9.  [Validate] accepts an identity exactly when every version is
    valid and the logical times are non-decreasing along the chain; it
    returns an error exactly when some version is invalid or some
    version's logical time is strictly less than that of the preceding
    version. *)
Theorem Validate_chronological (i : Identity) :
  (Validate Version_Validate i = None ↔
     Forall (λ v, Version_Validate v = None) (Versions i) ∧
     Sorted N.le (times i)) ∧
  (is_Some (Validate Version_Validate i) ↔
     Exists (λ v, is_Some (Version_Validate v)) (Versions i) ∨
     descent (times i)).
Proof.
  pose proof (Validate_None i) as Hacc.
  split; [exact Hacc|]. rewrite <-not_eq_None_Some, Hacc. split.
  - intros Hnot.
    destruct (Sorted_or_descent (times i)) as [Hs|Hd]; [|by right].
    assert (∀ v, {Version_Validate v = None} +
                 {is_Some (Version_Validate v)}) as dec.
    { intros v. destruct (Version_Validate v); [right; eauto | by left]. }
    destruct (Forall_Exists_dec _ _ dec (Versions i)) as [Hall|Hex];
      [|by left].
    destruct Hnot. by split.
  - intros [Hex|Hd] [Hall Hs].
    + apply Exists_exists in Hex as (v & Hin & [msg Hv]).
      rewrite Forall_forall in Hall. specialize (Hall v Hin). congruence.
    + by eapply descent_not_Sorted.
Qed.
End Validate.

Example Validate_examples :
  Validate samples.accept_all samples.rene = None ∧
  Validate samples.accept_all
    {| id := "0123"; Versions := reverse (Versions samples.rene) |}
    = Some (ErrNonChronological 7%N 3%N) ∧
  Validate samples.accept_all {| id := "0123"; Versions := [] |} = None.
Proof. by vm_compute. Qed.

(** An identity that passes validation answers [ValidKeysAtTime] as the
    specification says. *)
Corollary Validate_ValidKeysAtTime V (i : Identity) (t : lamport_Time) :
  Validate V i = None → ValidKeysAtTime i t = keys_of_latest_version_at i t.
Proof.
  intros Hv. apply ValidKeysAtTime_from_latest.
  apply Sorted_StronglySorted; [intros x y z; apply N.le_trans|].
  by apply (Validate_None V i).
Qed.

(** *** Display name *)

Lemma display_name_None name login :
  display_name name login = None ↔ name = "" ∧ login = "".
Proof.
  destruct name, login; split; try done; by intros [??].
Qed.

Lemma display_name_non_empty name login s :
  display_name name login = Some s → s ≠ "".
Proof.
  unfold display_name, is_empty.
  repeat case_bool_decide; intros ?; simplify_eq; try done.
  by destruct name.
Qed.

(** C10.  On an identity and an excerpt that carry the same name and
    login, [Identity.DisplayName] and [IdentityExcerpt.DisplayName] are the
    same function of the pair: both return the same non-empty string (the
    name, the login, or "name (login)") when one of the two is not empty,
    and both panic exactly when the two are empty. *)
Theorem DisplayName_same_function (i : Identity) (e : cache.IdentityExcerpt)
    (v : Version) :
  LastVersion i = Return v →
  cache.IdentityExcerpt_Name e = Name v →
  cache.IdentityExcerpt_Login e = Login v →
  displays (DisplayName i) (Name v) (Login v) ∧
  displays (cache.IdentityExcerpt_DisplayName e) (Name v) (Login v) ∧
  (∀ s, display_name (Name v) (Login v) = Some s → s ≠ "") ∧
  (display_name (Name v) (Login v) = None ↔ Name v = "" ∧ Login v = "").
Proof.
  intros Hlast Hname Hlogin. split_and!.
  - unfold displays, DisplayName, Identity_Name, Identity_Login.
    rewrite Hlast. simpl. unfold display_name.
    by destruct (is_empty (Name v)), (is_empty (Login v)).
  - unfold displays, cache.IdentityExcerpt_DisplayName.
    rewrite Hname, Hlogin. unfold display_name, sprintf_name_login.
    by destruct (is_empty (Name v)), (is_empty (Login v)).
  - intros s. apply display_name_non_empty.
  - apply display_name_None.
Qed.

Lemma DisplayName_same_function_witness :
  DisplayName samples.rene = Return "René Descartes (rene)" ∧
  cache.IdentityExcerpt_DisplayName samples.rene_excerpt =
    Return "René Descartes (rene)".
Proof.
  destruct (DisplayName_same_function samples.rene samples.rene_excerpt
              (samples.version "René Descartes" "rene"
                 [samples.key_a; samples.key_b] 7)
              eq_refl eq_refl eq_refl) as (Hi & He & _).
  split; [exact Hi | exact He].
Defined.

(** *** Versions added to the chain *)

Lemma ValidKeysAtTime_from_app result vs1 vs2 t :
  Forall (λ v, (Time v ≤ t)%N) vs1 →
  ValidKeysAtTime_from result (vs1 ++ vs2) t =
  ValidKeysAtTime_from
    (match last vs1 with Some v => Keys v | None => result end) vs2 t.
Proof.
  intros Hall. revert result.
  induction Hall as [|v vs1 Hv _ IH]; intros result; [done|]. simpl.
  apply N.ltb_ge in Hv as ->. rewrite IH, last_cons.
  by destruct (last vs1).
Qed.

(** X1.  The loop of [ValidKeysAtTime] stops at the first version that is later
    than [t]: whatever the order of the logical times, the keys are those
    of the version just before it, and the versions after it are not looked
    at, even when their logical time is at most [t]. *)
Theorem ValidKeysAtTime_stops_at_first_later (i : Identity)
    (t : lamport_Time) (before after : list Version) (v : Version) :
  Versions i = before ++ v :: after →
  Forall (λ w, (Time w ≤ t)%N) before →
  (t < Time v)%N →
  ValidKeysAtTime i t =
    match last before with Some w => Keys w | None => [] end.
Proof.
  intros Hvs Hbefore Hv. unfold ValidKeysAtTime.
  rewrite Hvs, ValidKeysAtTime_from_app by done. simpl.
  by apply N.ltb_lt in Hv as ->.
Qed.

Lemma ValidKeysAtTime_stops_at_first_later_witness :
  ValidKeysAtTime
    {| id := "0123";
       Versions := [samples.version "rene" "" [samples.key_a] 3;
                    samples.version "rene" "" [] 9;
                    samples.version "rene" "" [samples.key_b] 4] |} 5%N
    = [samples.key_a].
Proof.
  apply (ValidKeysAtTime_stops_at_first_later _ 5%N
           [samples.version "rene" "" [samples.key_a] 3]
           [samples.version "rene" "" [samples.key_b] 4]
           (samples.version "rene" "" [] 9)).
  - reflexivity.
  - repeat constructor. by vm_compute.
  - reflexivity.
Defined.

(** X2.  At a logical time that no version exceeds, [ValidKeysAtTime] returns
    what [Keys] returns: the keys of the last version. *)
Theorem ValidKeysAtTime_current (i : Identity) (t : lamport_Time)
    (v : Version) :
  LastVersion i = Return v →
  Forall (λ w, (Time w ≤ t)%N) (Versions i) →
  ValidKeysAtTime i t = Keys v ∧
  Identity_Keys i = Return (ValidKeysAtTime i t).
Proof.
  intros Hlast Hall. unfold Identity_Keys. rewrite Hlast. simpl.
  unfold LastVersion in Hlast.
  destruct (last (Versions i)) as [w|] eqn:Hw; simplify_eq.
  assert (ValidKeysAtTime i t = Keys v) as ->; [|done].
  unfold ValidKeysAtTime.
  rewrite <-(app_nil_r (Versions i)), ValidKeysAtTime_from_app by done.
  by rewrite Hw.
Qed.

Lemma ValidKeysAtTime_current_witness :
  ValidKeysAtTime samples.rene 7%N = [samples.key_a; samples.key_b] ∧
  Identity_Keys samples.rene = Return (ValidKeysAtTime samples.rene 7%N).
Proof.
  apply (ValidKeysAtTime_current samples.rene 7%N
           (samples.version "René Descartes" "rene"
              [samples.key_a; samples.key_b] 7)).
  - reflexivity.
  - repeat constructor; by vm_compute.
Defined.

(** X3.  A version added with a logical time later than [t] does not change the
    keys that are valid at [t]; a version added with a logical time at most
    [t], to a chain that has no version later than [t], makes its own keys
    the valid ones. *)
Theorem ValidKeysAtTime_AddVersion (i : Identity) (v : Version)
    (t : lamport_Time) :
  ((t < Time v)%N →
     ValidKeysAtTime (AddVersion i v) t = ValidKeysAtTime i t) ∧
  ((Time v ≤ t)%N → Forall (λ w, (Time w ≤ t)%N) (Versions i) →
     ValidKeysAtTime (AddVersion i v) t = Keys v).
Proof.
  unfold ValidKeysAtTime, AddVersion. simpl. split.
  - intros Hv. generalize (@nil Key).
    induction (Versions i) as [|w vs IH]; intros result; simpl.
    + by apply N.ltb_lt in Hv as ->.
    + by destruct (t <? Time w)%N.
  - intros Hv Hall. rewrite ValidKeysAtTime_from_app by done. simpl.
    by apply N.ltb_ge in Hv as ->.
Qed.

Lemma ValidKeysAtTime_AddVersion_witness :
  ValidKeysAtTime
    (AddVersion samples.rene (samples.version "rene" "" [] 12)) 8%N
    = [samples.key_a; samples.key_b] ∧
  ValidKeysAtTime
    (AddVersion samples.rene (samples.version "rene" "" [] 12)) 12%N = [].
Proof.
  destruct (ValidKeysAtTime_AddVersion samples.rene
              (samples.version "rene" "" [] 12) 8%N) as [Hlater _].
  destruct (ValidKeysAtTime_AddVersion samples.rene
              (samples.version "rene" "" [] 12) 12%N) as [_ Hnow].
  split.
  - by rewrite Hlater.
  - apply Hnow; [by vm_compute | repeat constructor; by vm_compute].
Defined.

Section AddVersion.
Variable Version_Validate : Version → option string.

Lemma Validate_from_app lastTime vs v :
  Validate_from Version_Validate lastTime (vs ++ [v]) = None ↔
  Validate_from Version_Validate lastTime vs = None ∧
  Version_Validate v = None ∧
  (default lastTime (Time <$> last vs) ≤ Time v)%N.
Proof.
  revert lastTime. induction vs as [|w vs IH]; intros lastTime; simpl.
  - destruct (Version_Validate v); [naive_solver|].
    destruct (N.ltb_spec (Time v) lastTime); naive_solver lia.
  - destruct (Version_Validate w); [naive_solver|].
    destruct (N.ltb_spec (Time w) lastTime); [naive_solver|].
    rewrite IH, last_cons. by destruct (last vs).
Qed.

(** X4.  A valid identity stays valid when a version is added exactly when
    the version is valid and its logical time is not less than that of
    the last version; an identity that is not valid never becomes valid
    by adding a version. *)
Theorem Validate_AddVersion (i : Identity) (v : Version) :
  Validate Version_Validate (AddVersion i v) = None ↔
  Validate Version_Validate i = None ∧
  Version_Validate v = None ∧
  (∀ w, last (Versions i) = Some w → (Time w ≤ Time v)%N).
Proof.
  unfold Validate, AddVersion. simpl. rewrite Validate_from_app.
  destruct (last (Versions i)) as [w|]; simpl.
  - naive_solver.
  - split; [naive_solver|]. intros (? & ? & _). split_and!; [done..|lia].
Qed.
End AddVersion.

Example Validate_AddVersion_examples :
  Validate samples.accept_all
    (AddVersion samples.rene (samples.version "rene" "" [] 7)) = None ∧
  Validate samples.accept_all
    (AddVersion samples.rene (samples.version "rene" "" [] 6))
    = Some (ErrNonChronological 7%N 6%N).
Proof. by vm_compute. Qed.

(** *** The identity of the user *)

(** X19.  [GetIdentity] loads an identity only when the configuration has
    exactly one entry under the identity key, and it is then the identity
    whose id is the value of this entry; with no entry and with several
    entries it fails without loading anything, and an error of the
    repository is returned as it is. *)
Theorem GetIdentity_single_entry
    (ReadConfigs : outcome config_error (gmap string string))
    (Read : string → outcome config_error Identity)
    (range_configs : gmap string string → list (string * string)) :
  (∀ m, range_configs m ≡ₚ map_to_list m) →
  match ReadConfigs with
  | Return configs =>
      (configs = ∅ →
         GetIdentity ReadConfigs Read range_configs
         = Failure ErrNoIdentitySet) ∧
      (∀ key id, configs = {[key := id]} →
         GetIdentity ReadConfigs Read range_configs = Read id) ∧
      (1 < size configs →
         GetIdentity ReadConfigs Read range_configs
         = Failure ErrMultipleIdentityConfig)
  | Failure e => GetIdentity ReadConfigs Read range_configs = Failure e
  | Panicked msg => GetIdentity ReadConfigs Read range_configs = Panicked msg
  end.
Proof.
  intros Hrange. unfold GetIdentity.
  destruct ReadConfigs as [configs|e|msg]; simpl; [|done..].
  split_and!.
  - intros ->. by rewrite map_size_empty.
  - intros key id ->. rewrite map_size_singleton. simpl.
    pose proof (Hrange {[key := id]}) as Hperm.
    rewrite map_to_list_singleton in Hperm.
    by apply Permutation_singleton_r in Hperm as ->.
  - intros Hsize. rewrite bool_decide_false by lia.
    by rewrite bool_decide_true.
Qed.

Lemma GetIdentity_single_entry_witness :
  GetIdentity (Return {["git-bug.identity" := "0123"]})
    (λ id, Return {| id := id; Versions := [] |}) map_to_list
  = Return {| id := "0123"; Versions := [] |}.
Proof.
  destruct (GetIdentity_single_entry
              (Return {["git-bug.identity" := "0123"]})
              (λ id, Return {| id := id; Versions := [] |}) map_to_list
              (λ m, reflexivity (map_to_list m))) as (_ & Hone & _).
  by rewrite (Hone "git-bug.identity" "0123").
Defined.

End identity_properties.

(** ** Operations *)

Module bug_properties.
Import bug.

(** *** Editing a comment *)

Lemma find_target_None target timeline i commentIndex :
  find_target target timeline i commentIndex = None ↔
  Forall (λ item, TimelineItem_Hash item ≠ target) timeline.
Proof.
  revert i commentIndex.
  induction timeline as [|item rest IH]; intros i k; simpl; [done|].
  case_bool_decide as Hh.
  - split; [done|]. by intros [? _]%Forall_cons.
  - rewrite IH, Forall_cons. tauto.
Qed.

(** C3.  When no item of the timeline has the target of an [edit_comment]
    as its hash, applying the operation returns the snapshot as it was,
    title, status, comments, timeline and labels included, and neither
    fails nor panics. *)
Theorem EditComment_Apply_unknown_target (op : EditCommentOperation)
    (snapshot : Snapshot) :
  (∀ item, item ∈ snap_Timeline snapshot →
           TimelineItem_Hash item ≠ edit_Target op) →
  EditComment_Apply op snapshot = Return snapshot.
Proof.
  intros Hno. unfold EditComment_Apply.
  by rewrite (proj2 (find_target_None _ _ 0 0)) by by apply Forall_forall.
Qed.

Lemma EditComment_Apply_unknown_target_witness :
  ∃ s, samples.commented_once = Return s ∧
       EditComment_Apply (samples.edit "comment/other" "edited") s = Return s.
Proof.
  eexists. split; [reflexivity|].
  apply EditComment_Apply_unknown_target.
  intros item Hin. vm_compute in Hin.
  repeat (apply elem_of_cons in Hin as [->|Hin]; [by vm_compute|]).
  by apply elem_of_nil in Hin.
Defined.

(** What the loop of [Apply] finds: the first item with the target as
    hash, at a position [n] of the timeline, and as comment index the
    number of items before it that the first type switch counts. *)
Lemma find_target_Some target timeline i k j item k' :
  find_target target timeline i k = Some (j, item, k') →
  ∃ n, j = i + n ∧ timeline !! n = Some item ∧
       TimelineItem_Hash item = target ∧
       Forall (λ it, TimelineItem_Hash it ≠ target) (take n timeline) ∧
       k' = k + length (filter (λ it, tracks_comment it = true)
                               (take n timeline)).
Proof.
  revert i k. induction timeline as [|it rest IH]; intros i k; simpl; [done|].
  case_bool_decide as Hh.
  - intros [= <- <- <-]. exists 0. simpl. split_and!; auto with lia.
  - intros (n & -> & Hn & Ht & Hbefore & ->)%IH.
    exists (S n). simpl. split_and!; auto with lia.
    destruct (tracks_comment it) eqn:Hit.
    + rewrite filter_cons_True by done. simpl. lia.
    + rewrite filter_cons_False by (by rewrite Hit). lia.
Qed.

Lemma find_target_first target timeline n item i k :
  timeline !! n = Some item →
  TimelineItem_Hash item = target →
  Forall (λ it, TimelineItem_Hash it ≠ target) (take n timeline) →
  find_target target timeline i k =
    Some (i + n, item,
          k + length (filter (λ it, tracks_comment it = true)
                             (take n timeline))).
Proof.
  revert n i k. induction timeline as [|it rest IH]; intros n i k; [done|].
  destruct n as [|n]; simpl.
  - intros [= ->] Hh _. rewrite bool_decide_true by done.
    by rewrite !Nat.add_0_r.
  - intros Hn Hh [Hit Hbefore]%Forall_cons.
    rewrite bool_decide_false by done.
    rewrite (IH n) by done. do 2 f_equal; [f_equal; lia|].
    destruct (tracks_comment it) eqn:Htr.
    + rewrite filter_cons_True by done. simpl. lia.
    + rewrite filter_cons_False by (by rewrite Htr). lia.
Qed.

(** What [Apply] does when the target is in the timeline: the revision goes
    to the first item with the target as hash, and the comment that is
    overwritten is the one at the index that the loop has counted. *)
Lemma EditComment_Apply_found (op : EditCommentOperation)
    (snapshot : Snapshot) n item :
  snap_Timeline snapshot !! n = Some item →
  TimelineItem_Hash item = edit_Target op →
  Forall (λ it, TimelineItem_Hash it ≠ edit_Target op)
         (take n (snap_Timeline snapshot)) →
  let commentIndex :=
    length (filter (λ it, tracks_comment it = true)
                   (take n (snap_Timeline snapshot))) in
  let revision :=
    {| comment_Author := None; comment_Message := edit_Message op;
       comment_Files := edit_Files op;
       comment_UnixTime := UnixTime (edit_base op) |} in
  EditComment_Apply op snapshot =
    match snap_Comments snapshot !! commentIndex with
    | None => Panicked "index out of range"
    | Some c =>
        Return
          {| snap_Status := snap_Status snapshot;
             snap_Title := snap_Title snapshot;
             snap_Comments :=
               <[commentIndex :=
                   set_message_files c (edit_Message op) (edit_Files op)]>
                 (snap_Comments snapshot);
             snap_Labels := snap_Labels snapshot;
             snap_Author := snap_Author snapshot;
             snap_CreatedAt := snap_CreatedAt snapshot;
             snap_Timeline :=
               <[n := append_revision item revision]>
                 (snap_Timeline snapshot) |}
    end.
Proof.
  intros Hn Hh Hfirst. unfold EditComment_Apply.
  by rewrite (find_target_first _ _ n item 0 0 Hn Hh Hfirst).
Qed.

(** The index that the loop has counted is the position of the comment
    that the target wraps as long as no comment-item comes before the
    target. *)
Lemma commentIndex_comment_position timeline n :
  Forall (λ it, tracks_comment it = wraps_comment it) (take n timeline) →
  length (filter (λ it, tracks_comment it = true) (take n timeline)) =
  comment_position timeline n.
Proof.
  unfold comment_position. induction 1 as [|it l Hit _ IH]; [done|].
  destruct (tracks_comment it) eqn:Htr.
  - rewrite (filter_cons_True (λ it, tracks_comment it = true)) by done.
    rewrite (filter_cons_True (λ it, wraps_comment it = true)) by done.
    simpl. by rewrite IH.
  - rewrite (filter_cons_False (λ it, tracks_comment it = true))
      by (by rewrite Htr).
    by rewrite (filter_cons_False (λ it, wraps_comment it = true))
      by (by rewrite <-Hit).
Qed.

(** The test of [EditCommentOperation.Apply]: the create-item is edited,
    then the comment-item. *)
Example TestEdit :
  let edit1 :=
    let* s := samples.commented_once in
    EditComment_Apply (samples.edit "create/create" "create edited") s in
  let edit2 :=
    let* s := edit1 in
    EditComment_Apply (samples.edit "comment/comment" "comment edited") s in
  samples.history_lengths edit1 = Some [2; 1] ∧
  samples.messages edit1 = Some ["create edited"; "comment"] ∧
  samples.history_lengths edit2 = Some [2; 2] ∧
  samples.messages edit2 = Some ["create edited"; "comment edited"].
Proof. by vm_compute. Qed.

(** C2, on a bug that was commented twice.  The target is the second
    comment-item, at position 2 of the timeline; the comment it wraps is
    [comments[2]].  The revision is appended to the history of the item,
    but the loop has counted the create-item only, so that [comments[1]],
    the first comment, is overwritten and [comments[2]] is left as it
    was. *)
Theorem EditComment_Apply_second_comment :
  ∃ s item,
    samples.commented_twice = Return s ∧
    snap_Timeline s !! 2 = Some item ∧
    wraps_comment item = true ∧
    TimelineItem_Hash item = "comment/second" ∧
    comment_position (snap_Timeline s) 2 = 2 ∧
    samples.messages (Return s) = Some ["create"; "first"; "second"] ∧
    let s' := EditComment_Apply
                (samples.edit "comment/second" "second edited") s in
    samples.history_lengths s' = Some [1; 1; 2] ∧
    samples.messages s' = Some ["create"; "second edited"; "second"].
Proof. do 2 eexists. split; [reflexivity|]. by vm_compute. Qed.

(** *** Validating a create operation *)

Lemma prefix_empty s : String.prefix "" s = true.
Proof. by destruct s. Qed.

(** [strings.Contains(s, "\n")] holds when a newline is among the bytes
    of [s]. *)
Lemma strings_Contains_newline s :
  strings_Contains s newline = true ↔
  "010"%char ∈ String.list_ascii_of_string s.
Proof.
  induction s as [|a s IH].
  - split; [done|]. by intros ?%elem_of_nil.
  - change (strings_Contains (String a s) newline) with
      ((if ascii_dec "010" a then String.prefix "" s else false)
       || strings_Contains s newline).
    change (String.list_ascii_of_string (String a s)) with
      (a :: String.list_ascii_of_string s).
    rewrite elem_of_cons, <-IH, orb_true_iff.
    destruct (ascii_dec "010" a) as [<-|Hne].
    + rewrite prefix_empty. tauto.
    + split; (intros [?|?]; [done | by right]).
Qed.

Section Validate.
Variable opBaseValidate : OpBase → OperationType → option string.
Variable text_Empty : string → bool.
Variable text_Safe : string → bool.

(** C6.  Validation of a create operation returns an error when the
    title is empty, when it contains a newline, when it is not fully
    printable and when the message is not fully printable; it succeeds
    exactly when the header is valid and none of these holds.  The error
    of a valid header is the one of the first check that fails. *)
Theorem Create_Validate_checks (op : CreateOperation) :
  let title := create_Title op in
  let message := create_Message op in
  let Validate := Create_Validate opBaseValidate text_Empty text_Safe in
  (text_Empty title = true ∨ strings_Contains title newline = true ∨
   text_Safe title = false ∨ text_Safe message = false →
   is_Some (Validate op)) ∧
  (Validate op = None ↔
     opBaseValidate (create_base op) CreateOp = None ∧
     text_Empty title = false ∧ strings_Contains title newline = false ∧
     text_Safe title = true ∧ text_Safe message = true) ∧
  (opBaseValidate (create_base op) CreateOp = None →
   Validate op =
     if text_Empty title then Some ErrTitleEmpty
     else if strings_Contains title newline then Some ErrTitleNotSingleLine
     else if text_Safe title
       then if text_Safe message then None else Some ErrMessageNotPrintable
     else Some ErrTitleNotPrintable).
Proof.
  unfold Create_Validate. simpl.
  destruct (opBaseValidate _ _), (text_Empty _), (strings_Contains _ _),
    (text_Safe (create_Title op)), (text_Safe (create_Message op));
    simpl; split_and!; try done; try (by eauto); try tauto;
    by intuition discriminate.
Qed.
End Validate.

Lemma Create_Validate_checks_witness :
  Create_Validate samples.opBaseValidate samples.text_Empty samples.text_Safe
    (samples.create "" "cannot sign in") = Some ErrTitleEmpty ∧
  Create_Validate samples.opBaseValidate samples.text_Empty samples.text_Safe
    (samples.create "login broken" "cannot sign in") = None.
Proof.
  split.
  - by rewrite (proj2 (proj2 (Create_Validate_checks
                 samples.opBaseValidate samples.text_Empty samples.text_Safe
                 (samples.create "" "cannot sign in"))) eq_refl).
  - by apply (proj1 (proj2 (Create_Validate_checks
                 samples.opBaseValidate samples.text_Empty samples.text_Safe
                 (samples.create "login broken" "cannot sign in")))).
Defined.

(** *** What [Apply] keeps *)

(** X5.  [EditCommentOperation.Apply] changes nothing but the message and the
    files of one comment and the content of one timeline item: title,
    status, labels, author and creation time are kept, no comment and no
    item is added or removed, no item changes its hash, and every comment
    keeps its author and its time. *)
Theorem EditComment_Apply_frame (op : EditCommentOperation)
    (s s' : Snapshot) :
  EditComment_Apply op s = Return s' →
  snap_Title s' = snap_Title s ∧ snap_Status s' = snap_Status s ∧
  snap_Labels s' = snap_Labels s ∧ snap_Author s' = snap_Author s ∧
  snap_CreatedAt s' = snap_CreatedAt s ∧
  TimelineItem_Hash <$> snap_Timeline s'
    = TimelineItem_Hash <$> snap_Timeline s ∧
  comment_Author <$> snap_Comments s' = comment_Author <$> snap_Comments s ∧
  comment_UnixTime <$> snap_Comments s'
    = comment_UnixTime <$> snap_Comments s.
Proof.
  unfold EditComment_Apply.
  destruct (find_target _ _ 0 0) as [[[n item] k]|] eqn:Hfind.
  - apply find_target_Some in Hfind as (? & -> & Hn & Hh & _ & _).
    destruct (snap_Comments s !! k) as [c|] eqn:Hc; [|done].
    intros [= <-]. simpl. split_and!; try done.
    + rewrite list_fmap_insert. apply list_insert_id.
      rewrite list_lookup_fmap, Hn. simpl. by destruct item.
    + rewrite list_fmap_insert. apply list_insert_id.
      by rewrite list_lookup_fmap, Hc.
    + rewrite list_fmap_insert. apply list_insert_id.
      by rewrite list_lookup_fmap, Hc.
  - intros [= <-]. by split_and!.
Qed.

Lemma EditComment_Apply_frame_witness :
  ∃ s s', samples.commented_twice = Return s ∧
          EditComment_Apply (samples.edit "comment/first" "edited") s
            = Return s' ∧
          snap_Title s' = "title" ∧ length (snap_Comments s') = 3.
Proof.
  do 2 eexists. split; [reflexivity|].
  match goal with
  | |- ?apply = Return ?s' ∧ _ =>
      assert (apply = Return s') as Happly by reflexivity
  end.
  split; [exact Happly|].
  destruct (EditComment_Apply_frame _ _ _ Happly) as (Htitle & _).
  split; [by rewrite Htitle | reflexivity].
Defined.

(** *** When [Apply] edits the right comment *)

(** X6.  When no comment-item comes before the target in the timeline (the
    target is the create-item, or the first comment-item), [Apply] does
    what is expected of it: the comment that the target wraps gets the new
    message and files, the target gets the revision at the end of its
    history, and nothing else changes in the comments and the timeline. *)
Theorem EditComment_Apply_no_comment_before (op : EditCommentOperation)
    (s : Snapshot) (n : nat) (item : TimelineItem) (c : Comment) :
  snap_Timeline s !! n = Some item →
  TimelineItem_Hash item = edit_Target op →
  Forall (λ it, TimelineItem_Hash it ≠ edit_Target op
                ∧ tracks_comment it = wraps_comment it)
         (take n (snap_Timeline s)) →
  wraps_comment item = true →
  snap_Comments s !! comment_position (snap_Timeline s) n = Some c →
  ∃ s' item',
    EditComment_Apply op s = Return s' ∧
    snap_Comments s' =
      <[comment_position (snap_Timeline s) n :=
          set_message_files c (edit_Message op) (edit_Files op)]>
        (snap_Comments s) ∧
    snap_Timeline s' = <[n := item']> (snap_Timeline s) ∧
    history_of item' =
      history_of item ++
      [ {| step_Message := edit_Message op;
           step_UnixTime := UnixTime (edit_base op) |} ].
Proof.
  intros Hn Hh Hbefore Hwraps Hc.
  apply Forall_and in Hbefore as [Hfirst Hcount].
  rewrite (EditComment_Apply_found op s n item Hn Hh Hfirst).
  rewrite (commentIndex_comment_position _ _ Hcount), Hc.
  do 2 eexists. split_and!; [done..|].
  by destruct item.
Qed.

Lemma EditComment_Apply_no_comment_before_witness :
  ∃ s, samples.commented_twice = Return s ∧
       samples.messages
         (EditComment_Apply (samples.edit "comment/first" "edited") s)
       = Some ["create"; "edited"; "second"].
Proof.
  eexists. split; [reflexivity|].
  match goal with
  | |- samples.messages (EditComment_Apply ?op ?s) = _ =>
      destruct (EditComment_Apply_no_comment_before op s 1
                  (AddCommentTimelineItem
                     (NewCommentTimelineItem "comment/first"
                        (samples.written "first")))
                  (samples.written "first"))
        as (s' & item' & -> & Hcomments & _)
  end; try reflexivity.
  - repeat constructor; by vm_compute.
  - simpl. by rewrite Hcomments.
Defined.

(** *** When [Apply] panics *)

Lemma EditComment_Apply_Panicked (op : EditCommentOperation) (s : Snapshot)
    (msg : string) :
  EditComment_Apply op s = Panicked msg →
  ∃ n item,
    snap_Timeline s !! n = Some item ∧
    TimelineItem_Hash item = edit_Target op ∧
    Forall (λ it, TimelineItem_Hash it ≠ edit_Target op)
           (take n (snap_Timeline s)) ∧
    length (snap_Comments s) ≤
      length (filter (λ it, tracks_comment it = true)
                     (take n (snap_Timeline s))).
Proof.
  intros Hp. unfold EditComment_Apply in Hp.
  destruct (find_target _ _ 0 0) as [[[j item] k]|] eqn:Hfind; [|done].
  apply find_target_Some in Hfind as (n & -> & Hn & Hh & Hfirst & ->).
  exists n, item. split_and!; try done.
  destruct (snap_Comments s !! _) eqn:Hc; [done|].
  by apply lookup_ge_None in Hc.
Qed.

(** X7.  [Apply] panics exactly when the target is in the timeline and the
    items that the loop has counted before it are at least as many as the
    comments. *)
Theorem EditComment_Apply_panics (op : EditCommentOperation) (s : Snapshot) :
  (∃ msg, EditComment_Apply op s = Panicked msg) ↔
  ∃ n item,
    snap_Timeline s !! n = Some item ∧
    TimelineItem_Hash item = edit_Target op ∧
    Forall (λ it, TimelineItem_Hash it ≠ edit_Target op)
           (take n (snap_Timeline s)) ∧
    length (snap_Comments s) ≤
      length (filter (λ it, tracks_comment it = true)
                     (take n (snap_Timeline s))).
Proof.
  split.
  - intros [msg Hp]. by eapply EditComment_Apply_Panicked.
  - intros (n & item & Hn & Hh & Hfirst & Hlen).
    rewrite (EditComment_Apply_found op s n item Hn Hh Hfirst).
    rewrite (proj2 (lookup_ge_None _ _)) by done. by eexists.
Qed.

(** [CreateOperation.Apply] returns a snapshot whose only comment is in
    step with its only item. *)
Lemma Create_Apply_in_step hashCreate (create : CreateOperation)
    (s0 s1 : Snapshot) :
  Create_Apply hashCreate create s0 = Return s1 → comments_in_step s1.
Proof.
  unfold Create_Apply. destruct (hashCreate create); [|done].
  by intros [= <-].
Qed.

(** X8.  On a snapshot whose comments are in step with its timeline (as
    many comments as items that carry one), an [edit_comment] whose target
    is an item that carries a comment does not panic, and the snapshot it
    returns is in step again. *)
Theorem EditComment_Apply_in_step (op : EditCommentOperation) (s : Snapshot)
    (n : nat) (item : TimelineItem) :
  comments_in_step s →
  snap_Timeline s !! n = Some item →
  TimelineItem_Hash item = edit_Target op →
  carries_comment item = true →
  ∃ s', EditComment_Apply op s = Return s' ∧ comments_in_step s'.
Proof.
  intros Hstep Hn Hh Hcarries.
  - destruct (EditComment_Apply op s) as [s'| [] |msg] eqn:Happly.
    + exists s'. split; [done|].
      unfold EditComment_Apply in Happly.
      destruct (find_target _ _ 0 0) as [[[j it] k]|] eqn:Hfind;
        [|by simplify_eq].
      apply find_target_Some in Hfind as (m & -> & Hm & _).
      destruct (snap_Comments s !! k) eqn:Hk; [|done].
      injection Happly as <-. unfold comments_in_step in *. simpl.
      rewrite length_insert, <-Hstep.
      rewrite <-(take_drop_middle _ _ _ Hm) at 2.
      rewrite insert_take_drop by (by eapply lookup_lt_Some).
      rewrite !filter_app, !length_app, !filter_cons.
      replace (carries_comment (append_revision it _))
        with (carries_comment it) by (by destruct it).
      by destruct (decide (carries_comment it = true)).
    + destruct (EditComment_Apply_Panicked op s msg Happly) as
        (m & it & Hm & Hhm & Hfirst & Hlen).
      exfalso. unfold comments_in_step in Hstep. rewrite <-Hstep in Hlen.
      clear Happly.
      assert (m ≤ n) as Hmn.
      { destruct (decide (m ≤ n)) as [|Hgt]; [done|].
        rewrite Forall_forall in Hfirst. destruct (Hfirst item); [|done].
        apply list_elem_of_lookup. exists n.
        rewrite lookup_take_lt by lia. done. }
      rewrite <-(take_drop m (snap_Timeline s)) in Hlen at 1.
      rewrite filter_app, length_app in Hlen.
      assert (length (filter (λ it, tracks_comment it = true)
                             (take m (snap_Timeline s)))
              ≤ length (filter (λ it, carries_comment it = true)
                               (take m (snap_Timeline s)))) as Hle.
      { generalize (take m (snap_Timeline s)). intros l.
        induction l as [|x l IH]; [done|].
        rewrite !filter_cons.
        destruct x; simpl; repeat case_decide; simpl; try done; lia. }
      assert (0 < length (filter (λ it, carries_comment it = true)
                                 (drop m (snap_Timeline s)))) as Hpos;
        [|lia].
      assert (item ∈ filter (λ it, carries_comment it = true)
                       (drop m (snap_Timeline s))) as Hin.
      { apply list_elem_of_filter. split; [done|].
        apply list_elem_of_lookup. exists (n - m).
        rewrite lookup_drop. by replace (m + (n - m)) with n by lia. }
      destruct (filter _ (drop m _)); [by apply elem_of_nil in Hin|].
      simpl. lia.
Qed.

Lemma EditComment_Apply_in_step_witness :
  ∃ s, samples.commented_twice = Return s ∧
       returns (EditComment_Apply
                  (samples.edit "comment/second" "edited") s) = true.
Proof.
  eexists. split; [reflexivity|].
  match goal with
  | |- returns (EditComment_Apply ?op ?s) = true =>
      destruct (EditComment_Apply_in_step op s 2
                  (AddCommentTimelineItem
                     (NewCommentTimelineItem "comment/second"
                        (samples.written "second"))))
        as (s' & Hs' & _); [reflexivity..|]
  end.
  by rewrite Hs'.
Defined.

(** An [edit_comment] whose target is the hash of an item without comment
    can make [Apply] panic: here the target is a set-status item that comes
    after the only comment. *)
Example EditComment_Apply_panics_on_status_item :
  EditComment_Apply (samples.edit "status/closed" "edited")
    samples.closed_bug
  = Panicked "index out of range".
Proof. reflexivity. Qed.

(** *** Creating, then editing *)

(** X9.  A create operation followed by an [edit_comment] that targets it
    leaves a bug with the title of the create operation, a single comment
    by its author with the message and files of the edit, and a
    create-item whose history has the two versions of the message. *)
Theorem Create_then_EditComment (hashCreate : CreateOperation → option Hash)
    (create : CreateOperation) (edit : EditCommentOperation)
    (s : Snapshot) :
  hashCreate create = Some (edit_Target edit) →
  ∃ s',
    (let* s1 := Create_Apply hashCreate create s in
     EditComment_Apply edit s1) = Return s' ∧
    snap_Title s' = create_Title create ∧
    snap_Comments s' =
      [ {| comment_Author := Author (create_base create);
           comment_Message := edit_Message edit;
           comment_Files := edit_Files edit;
           comment_UnixTime := UnixTime (create_base create) |} ] ∧
    step_Message <$> (snap_Timeline s' ≫= history_of)
      = [create_Message create; edit_Message edit] ∧
    length (snap_Timeline s') = 1.
Proof.
  intros Hhash. unfold Create_Apply. rewrite Hhash. simpl.
  unfold EditComment_Apply. simpl.
  rewrite bool_decide_true by done. simpl.
  by eexists.
Qed.

Lemma Create_then_EditComment_witness :
  samples.messages
    (let* s1 := Create_Apply samples.hashCreate
                  (samples.create "login broken" "cannot sign in")
                  samples.empty_snapshot in
     EditComment_Apply
       (samples.edit "create/cannot sign in" "login broken on macOS") s1)
  = Some ["login broken on macOS"].
Proof.
  destruct (Create_then_EditComment samples.hashCreate
              (samples.create "login broken" "cannot sign in")
              (samples.edit "create/cannot sign in" "login broken on macOS")
              samples.empty_snapshot eq_refl) as (s' & Hs' & _ & Hc & _).
  rewrite Hs'. simpl. by rewrite Hc.
Defined.

End bug_properties.

(** ** The repository cache *)

Module cache_properties.
Import cache.

(** *** Resolution and queries *)

Section RepoCache.
Variable Bug : Type.
Variable ReadLocalBug : string → outcome error Bug.
Variable range : gmap string BugExcerpt → list (string * BugExcerpt).
Hypothesis range_visits_once : ∀ m, range m ≡ₚ map_to_list m.

Implicit Types (c : RepoCache Bug) (matches : string → BugExcerpt → bool).

Lemma foldl_collect matches (matching : list string)
    (entries : list (string * BugExcerpt)) :
  foldl (λ matching entry,
           if matches entry.1 entry.2 then matching ++ [entry.1]
           else matching) matching entries =
  matching ++ (filter (λ entry, matches entry.1 entry.2 = true) entries).*1.
Proof.
  revert matching. induction entries as [|[id e] entries IH];
    intros matching; simpl.
  - by rewrite app_nil_r.
  - rewrite IH. destruct (matches id e) eqn:Hm.
    + rewrite filter_cons_True by done. by rewrite <-app_assoc.
    + rewrite filter_cons_False; [done|]. simpl. by rewrite Hm.
Qed.

Lemma map_to_list_matching matches c :
  filter (λ entry, matches entry.1 entry.2 = true) (range (excerpts c))
  ≡ₚ map_to_list (matching_excerpts matches c).
Proof.
  rewrite range_visits_once. apply NoDup_Permutation.
  - apply NoDup_filter, NoDup_map_to_list.
  - apply NoDup_map_to_list.
  - intros [id e]. unfold matching_excerpts.
    rewrite list_elem_of_filter, !elem_of_map_to_list,
      map_lookup_filter_Some. tauto.
Qed.

(** The list that both resolutions collect holds the matching ids, each
    once. *)
Lemma collect_matching_found matches c :
  collect_matching range matches c ≡ₚ
  elements (dom (matching_excerpts matches c)).
Proof.
  unfold collect_matching. rewrite foldl_collect. simpl.
  rewrite map_to_list_matching.
  apply NoDup_Permutation.
  - apply NoDup_fst_map_to_list.
  - apply NoDup_elements.
  - intros id. rewrite elem_of_elements, elem_of_dom, list_elem_of_fmap.
    split.
    + intros ([id' e] & -> & Hin%elem_of_map_to_list). by exists e.
    + intros [e He]. exists (id, e). by rewrite elem_of_map_to_list.
Qed.

Lemma length_collect_matching matches c :
  length (collect_matching range matches c) =
  size (matching_excerpts matches c).
Proof. by rewrite collect_matching_found, <-size_dom. Qed.

Lemma resolve_matching_rules matches c :
  multiplicity_rules ReadLocalBug matches c
    (resolve_matching ReadLocalBug c (collect_matching range matches c)).
Proof.
  pose proof (length_collect_matching matches c) as Hlen.
  pose proof (collect_matching_found matches c) as Hfound.
  unfold multiplicity_rules, resolve_matching. simpl.
  destruct (collect_matching range matches c) as [|id [|id' matching]];
    simpl in *; split_and!; intros Hsize; try lia.
  - done.
  - exists id. split; [|done]. apply set_eq. intros x.
    by rewrite <-elem_of_elements, <-Hfound, list_elem_of_singleton,
      elem_of_singleton.
  - by eexists.
Qed.

(** Resolution by prefix and resolution by create metadata follow the
    same multiplicity rules on the entries that pass the test of their
    loop: with no such id the error is [ErrBugNotExist], with more than
    one it is [ErrMultipleMatch] with all these ids, and with exactly
    one the result is that of resolving this id.  For the metadata, the
    test of the loop also accepts, for the empty value, the entries that
    do not have the key. *)
Theorem resolution_multiplicity c (prefix key value : string) :
  multiplicity_rules ReadLocalBug
    (λ id _, strings_HasPrefix id prefix) c
    (ResolveBugPrefix ReadLocalBug range c prefix) ∧
  multiplicity_rules ReadLocalBug
    (λ _ excerpt, has_create_metadata key value excerpt) c
    (ResolveBugCreateMetadata ReadLocalBug range c key value).
Proof. split; apply resolve_matching_rules. Qed.

(** A bug that is in memory is resolved to itself, and one that is not
    is read from the repository and kept. *)
Lemma ResolveBug_loaded c id cached :
  bugs c !! id = Some cached →
  ResolveBug ReadLocalBug c id = (Return cached, c).
Proof. intros Hc. unfold ResolveBug. by rewrite Hc. Qed.

(** C1, as the code has it.  Without a query, [QueryBugs] returns the
    ids of all the excerpts of the map, whatever their status, in the
    order in which the map is visited: the n-th id is the id of the n-th
    excerpt that [range] visits, and every excerpt is there once. *)
Theorem QueryBugs_nil_all_bugs c :
  ∃ ids, QueryBugs range c None = Return ids ∧
         ids = (λ entry, Id entry.2) <$> range (excerpts c) ∧
         ids ≡ₚ (λ entry, Id entry.2) <$> map_to_list (excerpts c) ∧
         length ids = size (excerpts c) ∧
         ∀ id e, excerpts c !! id = Some e → Id e ∈ ids.
Proof.
  exists (AllBugsIds range c). unfold AllBugsIds.
  split_and!; [done|done|by rewrite range_visits_once|..].
  - by rewrite length_fmap, range_visits_once, length_map_to_list.
  - intros id e He. apply list_elem_of_fmap. exists (id, e).
    split; [done|]. by rewrite range_visits_once, elem_of_map_to_list.
Qed.
End RepoCache.

Lemma map_to_list_visits_once (m : gmap string BugExcerpt) :
  map_to_list m ≡ₚ map_to_list m.
Proof. reflexivity. Defined.

(** On the cache of three bugs: no id starts with [ff], two start with
    [1a], one starts with [c3]. *)
Lemma resolution_multiplicity_witness :
  ResolveBugPrefix samples.ReadLocalBug map_to_list samples.three_bugs "ff"
    = (Failure ErrBugNotExist, samples.three_bugs) ∧
  (∃ matching,
     ResolveBugPrefix samples.ReadLocalBug map_to_list samples.three_bugs "1a"
       = (Failure (ErrMultipleMatch matching), samples.three_bugs) ∧
     matching ≡ₚ ["1a2b"; "1a7f"]) ∧
  ResolveBugPrefix samples.ReadLocalBug map_to_list samples.three_bugs "c3"
    = ResolveBug samples.ReadLocalBug samples.three_bugs "c3d4" ∧
  ResolveBugCreateMetadata samples.ReadLocalBug map_to_list
    samples.three_bugs "origin" "gitlab"
    = ResolveBug samples.ReadLocalBug samples.three_bugs "c3d4".
Proof.
  pose proof (λ prefix key value,
    resolution_multiplicity unit samples.ReadLocalBug map_to_list
      map_to_list_visits_once samples.three_bugs prefix key value) as H.
  split_and!.
  - destruct (H "ff" "" "") as [(Hnone & _ & _) _]. apply Hnone. by vm_compute.
  - destruct (H "1a" "" "") as [(_ & Hmany & _) _].
    destruct Hmany as (matching & Hres & Hperm).
    { vm_compute. lia. }
    exists matching. split; [exact Hres|].
    rewrite Hperm. vm_compute. apply perm_swap.
  - destruct (H "c3" "" "") as [(_ & _ & Hone) _].
    destruct Hone as (id & Hdom & Hres); [by vm_compute|].
    rewrite Hres.
    assert ("c3d4" ∈ ({[id]} : gset string)) as Hin%elem_of_singleton.
    { rewrite <-Hdom. apply elem_of_dom. eexists. by vm_compute. }
    by subst.
  - destruct (H "" "origin" "gitlab") as [_ (_ & _ & Hone)].
    destruct Hone as (id & Hdom & Hres); [by vm_compute|].
    rewrite Hres.
    assert ("c3d4" ∈ ({[id]} : gset string)) as Hin%elem_of_singleton.
    { rewrite <-Hdom. apply elem_of_dom. eexists. by vm_compute. }
    by subst.
Defined.

Lemma QueryBugs_nil_all_bugs_witness :
  ∃ ids, QueryBugs map_to_list samples.three_bugs None = Return ids ∧
         length ids = 3 ∧ "1a7f" ∈ ids.
Proof.
  destruct (QueryBugs_nil_all_bugs unit map_to_list map_to_list_visits_once
              samples.three_bugs) as (ids & Hres & _ & _ & Hlen & Hall).
  exists ids. split_and!; [exact Hres | exact Hlen |].
  apply (Hall "1a7f" (samples.excerpt "1a7f" bug.ClosedStatus 9
                        {["origin" := "github"]})).
  by vm_compute.
Defined.

(** The default query on the cache of three bugs: the open bugs, the one
    edited last first. *)
Example QueryBugs_default_query :
  QueryBugs map_to_list samples.three_bugs (Some default_query)
    = Return ["1a2b"; "c3d4"].
Proof. by vm_compute. Qed.

(** C7, on a key that no bug carries.  No create metadata of the two
    labelled bugs, nor of the closed bug, has the key [origin], so that no
    id matches the pair of [origin] and the empty value.  The lookup in
    the loop of [ResolveBugCreateMetadata] reads an absent key as the empty
    string: with the two labelled bugs the resolution is ambiguous between
    them, and with the closed bug alone it resolves to this bug, where
    [ErrBugNotExist] is expected.  Resolution by prefix on a prefix that
    no id has does return [ErrBugNotExist]. *)
Theorem ResolveBugCreateMetadata_absent_key :
  map_Forall (λ _ e, CreateMetadata e !! "origin" = None)
             (excerpts samples.labelled_bugs) ∧
  ResolveBugCreateMetadata samples.ReadLocalBug map_to_list
    samples.labelled_bugs "origin" ""
    = (Failure (ErrMultipleMatch ["c3d4"; "1a2b"]), samples.labelled_bugs) ∧
  map_Forall (λ _ e, CreateMetadata e !! "origin" = None)
             (excerpts samples.one_closed_bug) ∧
  (ResolveBugCreateMetadata samples.ReadLocalBug map_to_list
     samples.one_closed_bug "origin" "").1
    = Return (NewBugCache ()) ∧
  ResolveBugPrefix samples.ReadLocalBug map_to_list
    samples.labelled_bugs "ff"
    = (Failure ErrBugNotExist, samples.labelled_bugs).
Proof.
  split_and!; try by vm_compute.
  - intros id e He. simpl in He.
    apply lookup_insert_Some in He as [[_ <-]|[_ He]]; [done|].
    apply lookup_insert_Some in He as [[_ <-]|[_ He]]; [done|].
    by rewrite lookup_empty in He.
  - intros id e He. simpl in He.
    by apply lookup_singleton_Some in He as [_ <-].
Qed.

(** C1, as stated, fails on a cache whose only bug is closed: without a
    query the closed bug is returned, while the default query returns no
    bug.  It fails on the order too: on the cache of three bugs, visited
    in an order in which the bug edited at time 2 comes before the one
    edited at time 5, the ids are returned in the order of the visit, while
    the default query returns the open bugs, the one edited last first. *)
Lemma QueryBugs_nil_returns_closed_bug :
  QueryBugs map_to_list samples.one_closed_bug None = Return ["1a7f"] ∧
  Status <$> excerpts samples.one_closed_bug !! "1a7f"
    = Some bug.ClosedStatus ∧
  QueryBugs map_to_list samples.one_closed_bug (Some default_query)
    = Return [] ∧
  QueryBugs map_to_list samples.three_bugs None
    = Return ["c3d4"; "1a7f"; "1a2b"] ∧
  EditTime <$> excerpts samples.three_bugs !! "c3d4" = Some 2%N ∧
  EditTime <$> excerpts samples.three_bugs !! "1a2b" = Some 5%N ∧
  QueryBugs map_to_list samples.three_bugs (Some default_query)
    = Return ["1a2b"; "c3d4"].
Proof. by vm_compute. Qed.

(** *** The lock file *)

Lemma length_read_limited limit content :
  String.length (read_limited limit content) =
  limit `min` String.length content.
Proof.
  unfold read_limited. revert content.
  induction limit as [|limit IH]; intros [|ch content]; simpl; auto.
Qed.

Lemma read_limited_short limit content :
  String.length content ≤ limit → read_limited limit content = content.
Proof.
  unfold read_limited. revert content.
  induction limit as [|limit IH]; intros [|ch content]; simpl;
    intros Hlen; try done; try lia.
  f_equal. apply IH. lia.
Qed.

(** What [repoIsAvailable] does on a lock file of fewer than 10 bytes that
    holds a number. *)
Lemma repoIsAvailable_pid os content pid :
  lockfile os = File content →
  String.length content < 10 →
  Atoi content = Some pid →
  repoIsAvailable os =
    if IsRunning os pid then (Some (ErrLocked pid), os)
    else (None, with_lockfile os NoFile).
Proof.
  intros Hfile Hlen Hpid. unfold repoIsAvailable. rewrite Hfile.
  rewrite read_limited_short by lia.
  rewrite bool_decide_false by lia. by rewrite Hpid.
Qed.

Example Atoi_examples :
  Atoi "99999" = Some 99999%Z ∧ Atoi "+7" = Some 7%Z ∧
  Atoi "-7" = Some (-7)%Z ∧ Atoi "" = None ∧ Atoi "-" = None ∧
  Atoi "12 " = None ∧ Atoi "0x1f" = None ∧
  Atoi "9223372036854775808" = None ∧ sprintf_d 4242 = "4242".
Proof. by vm_compute. Qed.

(** C4, as the code has it.  [repoIsAvailable] reports the size of an
    existing lock file exactly when the file has 10 bytes or more; a file
    of fewer than 10 bytes that holds a decimal number is read as the pid
    of the holder; and the lock file that a successful [lock] leaves holds
    the decimal pid of the caller and nothing else. *)
Theorem lock_file_size (os : OS) :
  (∀ content,
     lockfile os = File content →
     ((repoIsAvailable os).1 = Some ErrLockFileSize ↔
      10 ≤ String.length content)) ∧
  (∀ content pid,
     lockfile os = File content →
     String.length content < 10 →
     Atoi content = Some pid →
     (repoIsAvailable os).1 =
       if IsRunning os pid then Some (ErrLocked pid) else None) ∧
  (∀ os',
     lock os = (None, os') →
     lockfile os' = File (sprintf_d (Getpid os))).
Proof.
  split_and!.
  - intros content Hfile. unfold repoIsAvailable. rewrite Hfile.
    pose proof (length_read_limited 10 content) as Hlen.
    case_bool_decide as Hten; simpl.
    + split; [lia | done].
    + split; [|lia].
      destruct (Atoi _) as [pid|]; [destruct (IsRunning os pid)|]; done.
  - intros content pid Hfile Hlen Hpid.
    rewrite (repoIsAvailable_pid os content pid) by done.
    by destruct (IsRunning os pid).
  - intros os'. unfold lock.
    destruct (repoIsAvailable os) as [[err|] os1] eqn:Hav; [done|].
    destruct (Create_error os1); [done|].
    destruct (WriteString_error os1) as [[n msg]|]; [done|].
    destruct (Close_error os1); [done|].
    intros [= <-]. simpl. do 2 f_equal.
    unfold repoIsAvailable in Hav.
    destruct (lockfile os) as [|msg|content]; simplify_eq/=; [done|].
    case_bool_decide; [done|].
    destruct (Atoi _) as [pid|]; [destruct (IsRunning os pid)|];
      by simplify_eq/=.
Qed.

Lemma lock_file_size_witness :
  (repoIsAvailable (samples.system (File "4242"))).1 = Some (ErrLocked 4242) ∧
  lockfile (lock (samples.system NoFile)).2 = File "4242".
Proof.
  destruct (lock_file_size (samples.system (File "4242"))) as (_ & Hpid & _).
  destruct (lock_file_size (samples.system NoFile)) as (_ & _ & Hwrite).
  split.
  - apply (Hpid "4242" 4242%Z); [reflexivity | simpl; lia | by vm_compute].
  - transitivity (File (sprintf_d (Getpid (samples.system NoFile))));
      [|by vm_compute].
    apply Hwrite. by vm_compute.
Defined.

(** C4, as stated, fails on a lock file of exactly 10 bytes: the file is
    within the limit and holds a decimal number, and its size is
    reported. *)
Lemma repoIsAvailable_rejects_ten_bytes :
  String.length "1234567890" ≤ 10 ∧
  Atoi "1234567890" = Some 1234567890%Z ∧
  (repoIsAvailable (samples.system (File "1234567890"))).1
    = Some ErrLockFileSize.
Proof. split_and!; [simpl; lia | by vm_compute..]. Qed.




(** *** Reading back the lock file *)






Lemma length_pretty_N_go_upper (k : nat) (x : N) (s : string) :
  (x < 10 ^ N.of_nat k)%N →
  String.length (pretty_N_go x s) ≤ k + String.length s.
Proof.
  revert x s. induction k as [|k IH]; intros x s Hx.
  - replace x with 0%N by (simpl in Hx; lia).
    rewrite pretty_N_go_0. lia.
  - destruct (decide (x = 0%N)) as [->|Hne].
    { rewrite pretty_N_go_0. lia. }
    rewrite pretty_N_go_step by lia.
    etrans; [apply IH|simpl; lia].
    apply N.Div0.div_lt_upper_bound.
    rewrite Nat2N.inj_succ, N.pow_succ_r' in Hx. lia.
Qed.

Lemma length_pretty_N_go_mono (x : N) (s : string) :
  String.length s ≤ String.length (pretty_N_go x s).
Proof.
  revert s. induction (N.lt_wf_0 x) as [x _ IH]; intros s.
  destruct (decide (x = 0%N)) as [->|Hne].
  { by rewrite pretty_N_go_0. }
  rewrite pretty_N_go_step by lia.
  etrans; [|apply IH; apply N.div_lt; lia]. simpl. lia.
Qed.

Lemma length_pretty_N_go_lower (k : nat) (x : N) (s : string) :
  (10 ^ N.of_nat k ≤ x)%N →
  S k + String.length s ≤ String.length (pretty_N_go x s).
Proof.
  revert x s. induction k as [|k IH]; intros x s Hx.
  - rewrite pretty_N_go_step by (simpl in Hx; lia).
    etrans; [|apply length_pretty_N_go_mono]. simpl. lia.
  - rewrite Nat2N.inj_succ, N.pow_succ_r' in Hx.
    rewrite pretty_N_go_step by lia.
    etrans; [|apply IH]; [simpl; lia|].
    apply N.div_le_lower_bound; lia.
Qed.

Lemma length_sprintf_d (pid : Z) :
  ((0 ≤ pid < 10 ^ 9)%Z → String.length (sprintf_d pid) < 10) ∧
  ((10 ^ 9 ≤ pid)%Z → 10 ≤ String.length (sprintf_d pid)).
Proof.
  unfold sprintf_d, pretty, pretty_Z.
  destruct pid as [|p|p]; [split; [simpl|]; lia | | split; lia].
  unfold pretty, pretty_positive, pretty, pretty_N.
  rewrite decide_False by done. split; intros Hp.
  - pose proof (length_pretty_N_go_upper 9 (Npos p) "") as Hlen.
    simpl in Hlen. lia.
  - pose proof (length_pretty_N_go_lower 9 (Npos p) "") as Hlen.
    simpl in Hlen. lia.
Qed.

Lemma repoIsAvailable_long os content :
  lockfile os = File content →
  10 ≤ String.length content →
  repoIsAvailable os = (Some ErrLockFileSize, os).
Proof.
  intros Hfile Hlen. unfold repoIsAvailable. rewrite Hfile.
  rewrite bool_decide_true; [done|].
  rewrite length_read_limited. lia.
Qed.

Lemma lock_success (os held : OS) :
  lock os = (None, held) →
  held = with_lockfile os (File (sprintf_d (Getpid os))).
Proof.
  unfold lock. destruct (repoIsAvailable os) as [[err|] os1] eqn:Hav; [done|].
  destruct (Create_error os1) eqn:Hcreate; [done|].
  destruct (WriteString_error os1) as [[n msg]|] eqn:Hwrite; [done|].
  destruct (Close_error os1) eqn:Hclose; [done|].
  intros [= <-]. unfold repoIsAvailable in Hav.
  destruct (lockfile os) as [|msg|content]; simplify_eq/=; [done|].
  case_bool_decide; [done|].
  destruct (Atoi _) as [pid|]; [destruct (IsRunning os pid)|];
    by simplify_eq/=.
Qed.

(** A [lock] that [repoIsAvailable] refuses returns its error and changes
    nothing. *)
Lemma lock_refused (os : OS) (e : error) :
  (repoIsAvailable os).1 = Some e → lock os = (Some e, os).
Proof.
  unfold lock, repoIsAvailable.
  destruct (lockfile os) as [|msg|content]; simpl; [done|by intros [= ->]|].
  case_bool_decide; [by intros [= ->]|].
  destruct (Atoi _) as [pid|]; [|by intros [= ->]].
  destruct (IsRunning os pid); [by intros [= ->]|done].
Qed.

(** X10.  [lock] changes nothing of the system but the lock file.  When
    it succeeds the lock file holds the pid of the caller; when
    [repoIsAvailable] refuses the repository (a lock file that cannot be
    opened, that is too long or that holds no number, or a holder that is
    alive), [lock] returns its error and leaves the lock file as it
    was. *)
Theorem lock_changes_lock_file_only (os os' : OS) (err : option error) :
  lock os = (err, os') →
  os' = with_lockfile os (lockfile os') ∧
  (err = None → lockfile os' = File (sprintf_d (Getpid os))) ∧
  (∀ e, (repoIsAvailable os).1 = Some e → err = Some e ∧ os' = os).
Proof.
  intros Hlock. split_and!.
  - revert Hlock. unfold lock.
    assert (∀ os1, (repoIsAvailable os).2 = os1 →
                   os1 = with_lockfile os (lockfile os1)) as Heta.
    { intros os1 <-. unfold repoIsAvailable.
      destruct os as [f running pid create write close]; simpl.
      destruct f as [|msg|content]; simpl; [done..|].
      case_bool_decide; [done|].
      destruct (Atoi _) as [n|]; [destruct (running n)|]; done. }
    destruct (repoIsAvailable os) as [[e|] os1]; simpl in Heta.
    { intros [= <- <-]. by apply Heta. }
    specialize (Heta os1 eq_refl). rewrite Heta. simpl.
    destruct (Create_error os); [by intros [= <- <-]|].
    destruct (WriteString_error os) as [[n msg]|]; [by intros [= <- <-]|].
    destruct (Close_error os); by intros [= <- <-].
  - intros ->. by rewrite (lock_success _ _ Hlock).
  - intros e He. rewrite (lock_refused os e He) in Hlock.
    by injection Hlock as <- <-.
Qed.

Lemma lock_changes_lock_file_only_witness :
  (lock (samples.system (File "not a pid"))).2
    = samples.system (File "not a pid") ∧
  lockfile (lock (samples.system (File "99999"))).2 = File "4242".
Proof.
  split.
  - destruct (lock_changes_lock_file_only
                (samples.system (File "not a pid"))
                (lock (samples.system (File "not a pid"))).2
                (lock (samples.system (File "not a pid"))).1)
      as (_ & _ & Hrefused); [by vm_compute|].
    apply (Hrefused (ErrAtoi "not a pid")). by vm_compute.
  - destruct (lock_changes_lock_file_only
                (samples.system (File "99999"))
                (lock (samples.system (File "99999"))).2 None)
      as (_ & Hpid & _); [by vm_compute|].
    rewrite Hpid by done. by vm_compute.
Defined.



(** X12.  A process whose pid has 10 digits or more writes a lock file that no
    acquisition accepts afterwards: every later [lock] fails on the size
    of the file, whether the writer is alive or not. *)
Theorem lock_of_long_pid_is_stuck (os held later : OS) :
  lock os = (None, held) →
  (10 ^ 9 ≤ Getpid os)%Z →
  lockfile later = lockfile held →
  lock later = (Some ErrLockFileSize, later).
Proof.
  intros Hlock Hpid Hfile.
  apply lock_success in Hlock as ->.
  simpl in Hfile. unfold lock.
  rewrite (repoIsAvailable_long later _ Hfile); [done|].
  by apply length_sprintf_d.
Qed.

Lemma lock_of_long_pid_is_stuck_witness :
  lock (samples.system_of 4242 (File "1234567890"))
  = (Some ErrLockFileSize, samples.system_of 4242 (File "1234567890")).
Proof.
  apply (lock_of_long_pid_is_stuck
           (samples.system_of 1234567890 NoFile)
           (samples.system_of 1234567890 (File "1234567890")));
    [by vm_compute | by vm_compute | reflexivity].
Defined.

(** *** More on resolution, labels and queries *)

Lemma prefix_same_length (p s : string) :
  String.prefix p s = true → String.length s = String.length p → s = p.
Proof.
  intros Hp%String.prefix_correct Hlen. etrans; [|exact Hp].
  symmetry. apply (read_limited_short (String.length p) s). lia.
Qed.

Lemma ltb_false_leb (a b : string) :
  String.ltb b a = false ↔ String.leb a b = true.
Proof.
  unfold String.ltb, String.leb. rewrite (String.compare_antisym a b).
  by destruct (String.compare b a).
Qed.

Lemma ltb_asym (a b : string) :
  String.ltb a b = true → String.ltb b a = false.
Proof.
  unfold String.ltb. rewrite (String.compare_antisym b a).
  by destruct (String.compare a b).
Qed.

Lemma ltb_total_strict (a b : string) :
  String.ltb b a = false → a ≠ b → String.ltb a b = true.
Proof.
  unfold String.ltb. rewrite (String.compare_antisym a b).
  destruct (String.compare b a) eqn:Hc; try done.
  apply String.compare_eq_iff in Hc. by intros _ [].
Qed.

Lemma Sorted_weaken {A} (R R' : relation A) (l : list A) :
  (∀ a b, R a b → R' a b) → Sorted R l → Sorted R' l.
Proof.
  intros HR. induction 1 as [|a l _ IH Hhd]; constructor; [done|].
  destruct Hhd; constructor; auto.
Qed.

Lemma Sorted_sort_Sort {A} (less : A → A → bool) (l : list A) :
  (∀ a b, less a b = true → less b a = false) →
  Sorted (λ a b, less b a = false) (sort_Sort less l).
Proof.
  intros Hasym. unfold sort_Sort. apply Sorted_merge_sort.
  intros a b. destruct (less b a) eqn:Hba; [right; by apply Hasym | by left].
Qed.

Lemma sort_Sort_Permutation {A} (less : A → A → bool) (l : list A) :
  sort_Sort less l ≡ₚ l.
Proof. apply merge_sort_Permutation. Qed.

Section Resolution.
Variable Bug : Type.
Variable ReadLocalBug : string → outcome error Bug.
Variable range : gmap string BugExcerpt → list (string * BugExcerpt).
Hypothesis range_visits_once : ∀ m, range m ≡ₚ map_to_list m.
Variable range_labels : gset string → list string.
Hypothesis range_labels_visits_once : ∀ X, range_labels X ≡ₚ elements X.

Implicit Types (c : RepoCache Bug).

(** X13.  [ResolveBug] keeps what it has resolved: the bug it returns is in
    memory afterwards and is returned again without reading the
    repository; the excerpts and the other bugs in memory are left
    alone, and a resolution that fails leaves the cache as it was. *)
Theorem ResolveBug_keeps_bug c c' id
    (result : outcome error (BugCache Bug)) :
  ResolveBug ReadLocalBug c id = (result, c') →
  excerpts c' = excerpts c ∧
  (∀ id', id' ≠ id → bugs c' !! id' = bugs c !! id') ∧
  match result with
  | Return cached =>
      bugs c' !! id = Some cached ∧
      ResolveBug ReadLocalBug c' id = (Return cached, c')
  | _ => c' = c
  end.
Proof.
  unfold ResolveBug.
  destruct (bugs c !! id) as [cached|] eqn:Hc.
  { intros [= <- <-]. by rewrite Hc. }
  destruct (ReadLocalBug id) as [b|e|msg]; intros [= <- <-]; simpl;
    [|done..].
  split_and!; [done|..].
  - intros id' Hne. by rewrite lookup_insert_ne.
  - by rewrite lookup_insert_eq.
  - by rewrite lookup_insert_eq.
Qed.

(** X14.  When all the ids of the cache have the same length, as the hashes
    that identify bugs do, the full id of a known bug is a prefix that
    resolves to this bug. *)
Theorem ResolveBugPrefix_full_id c (id : string) (e : BugExcerpt) :
  excerpts c !! id = Some e →
  (∀ id', is_Some (excerpts c !! id') →
          String.length id' = String.length id) →
  ResolveBugPrefix ReadLocalBug range c id = ResolveBug ReadLocalBug c id.
Proof.
  intros He Hlen.
  destruct (resolve_matching_rules Bug ReadLocalBug range
              range_visits_once (λ id' _, strings_HasPrefix id' id) c)
    as (_ & _ & Hone).
  assert (matching_excerpts (λ id' _, strings_HasPrefix id' id) c
          = {[id := e]}) as Hfound.
  { apply map_eq. intros k. apply option_eq. intros x.
    unfold matching_excerpts.
    rewrite map_lookup_filter_Some, lookup_singleton_Some. simpl. split.
    - intros [Hk Hp]. apply prefix_same_length in Hp; [|by eauto].
      subst k. split; [done|congruence].
    - intros [<- <-]. split; [done|]. unfold strings_HasPrefix.
      apply String.prefix_correct.
      apply (read_limited_short (String.length id) id). lia. }
  rewrite Hfound, map_size_singleton, dom_singleton_L in Hone.
  destruct Hone as (id' & Hdom & Hres); [done|].
  assert (id ∈ ({[id']} : gset string)) as ->%elem_of_singleton.
  { rewrite <-Hdom. by apply elem_of_singleton. }
  exact Hres.
Qed.

Lemma elem_of_labels_fold (l : string) (set : gset string)
    (labels : list string) :
  l ∈ foldl (λ set l, {[l]} ∪ set) set labels ↔ l ∈ set ∨ l ∈ labels.
Proof.
  revert set. induction labels as [|l' labels IH]; intros set; simpl.
  - rewrite elem_of_nil. tauto.
  - rewrite IH, elem_of_union, elem_of_singleton, elem_of_cons. tauto.
Qed.

Lemma elem_of_labels_in_use_fold (l : string) (set : gset string)
    (entries : list (string * BugExcerpt)) :
  l ∈ foldl (λ set entry,
               foldl (λ set l, {[l]} ∪ set) set (Labels entry.2))
            set entries ↔
  l ∈ set ∨ ∃ entry, entry ∈ entries ∧ l ∈ Labels entry.2.
Proof.
  revert set. induction entries as [|entry entries IH]; intros set; simpl.
  - split; [by left|]. intros [?|(? & []%elem_of_nil & _)]. done.
  - rewrite IH, elem_of_labels_fold. split.
    + intros [[?|?]|(x & ? & ?)]; [by left|right..].
      * exists entry. split; [by left|done].
      * exists x. split; [by right|done].
    + intros [?|(x & [->|?]%elem_of_cons & ?)]; [by left; left|..].
      * left. by right.
      * right. by exists x.
Qed.

(** X15.  [ValidLabels] returns the labels that the excerpts carry, each
    once, in strictly increasing order. *)
Theorem ValidLabels_sorted_union c :
  (∀ l, l ∈ ValidLabels range range_labels c ↔
        ∃ id e, excerpts c !! id = Some e ∧ l ∈ Labels e) ∧
  NoDup (ValidLabels range range_labels c) ∧
  Sorted (λ a b, String.ltb a b = true)
         (ValidLabels range range_labels c).
Proof.
  assert (ValidLabels range range_labels c
          ≡ₚ elements (labels_in_use range c)) as Hperm.
  { unfold ValidLabels.
    by rewrite sort_Sort_Permutation, range_labels_visits_once. }
  assert (NoDup (ValidLabels range range_labels c)) as Hnodup.
  { rewrite Hperm. apply NoDup_elements. }
  split_and!; [|done|].
  - intros l. rewrite Hperm, elem_of_elements.
    unfold labels_in_use. rewrite elem_of_labels_in_use_fold.
    split.
    + intros [[]%not_elem_of_empty|([id e] & Hin & Hl)].
      exists id, e. split; [|done].
      by rewrite range_visits_once, elem_of_map_to_list in Hin.
    + intros (id & e & He & Hl). right. exists (id, e). split; [|done].
      by rewrite range_visits_once, elem_of_map_to_list.
  - assert (Sorted (λ a b, String.ltb b a = false)
                   (ValidLabels range range_labels c)) as Hsorted.
    { apply Sorted_sort_Sort. apply ltb_asym. }
    clear Hperm. revert Hnodup.
    induction Hsorted as [|a l _ IH Hhd]; intros Hnodup; [constructor|].
    apply NoDup_cons in Hnodup as [Ha Hnodup].
    constructor; [by apply IH|].
    destruct Hhd as [|b l Hab]; constructor.
    apply ltb_total_strict; [done|]. intros ->. apply Ha. by left.
Qed.

Lemma foldl_filtered (q : Query) (filtered : list BugExcerpt)
    (entries : list (string * BugExcerpt)) :
  foldl (λ filtered entry,
           if Query_Match q entry.2 then filtered ++ [entry.2]
           else filtered) filtered entries =
  filtered ++
  (filter (λ entry, Query_Match q entry.2 = true) entries).*2.
Proof.
  revert filtered. induction entries as [|[id e] entries IH];
    intros filtered; simpl.
  - by rewrite app_nil_r.
  - rewrite IH. destruct (Query_Match q e) eqn:Hm.
    + rewrite filter_cons_True by done. by rewrite <-app_assoc.
    + rewrite filter_cons_False; [done|]. simpl. by rewrite Hm.
Qed.

(** X16.  With a query, [QueryBugs] returns the ids of the excerpts that match
    it, each excerpt once, in the order of the sorter that the query
    selects; it panics when the query selects no known sorter. *)
Theorem QueryBugs_query c (q : Query) :
  ((∀ n, Query_OrderBy q ≠ OrderByOther n) →
   ∃ l, QueryBugs range c (Some q) = Return (Id <$> l) ∧
        l ≡ₚ (map_to_list
                (matching_excerpts (λ _ e, Query_Match q e) c)).*2 ∧
        Sorted (in_query_order q) l) ∧
  (∀ n, Query_OrderBy q = OrderByOther n →
        QueryBugs range c (Some q) = Panicked "missing sort type").
Proof.
  unfold QueryBugs, in_query_order. rewrite foldl_filtered. simpl.
  pose proof (map_to_list_matching Bug ReadLocalBug range
                range_visits_once (λ _ e, Query_Match q e) c) as Hperm.
  simpl in Hperm.
  split; [|by intros n ->].
  intros Hknown.
  destruct (Query_OrderBy q) as [| | |n] eqn:Hby;
    [| | |by destruct (Hknown n)];
    destruct (Query_OrderDirection q); simpl;
    eexists; (split; [reflexivity|]);
    (split; [by rewrite sort_Sort_Permutation, Hperm|]);
    (eapply Sorted_weaken; [|apply Sorted_sort_Sort]);
    unfold sort_Reverse, BugsById_Less, BugsByCreationTime_Less,
      BugsByEditTime_Less;
    intros a b;
    first [ apply ltb_false_leb
          | apply ltb_asym
          | intros Hge%N.ltb_ge; exact Hge
          | intros Hlt%N.ltb_lt; apply N.ltb_ge; lia ].
Qed.
End Resolution.

Lemma elements_visits_once (X : gset string) : elements X ≡ₚ elements X.
Proof. reflexivity. Defined.

Lemma ResolveBug_keeps_bug_witness :
  ∃ cached c',
    ResolveBug samples.ReadLocalBug samples.three_bugs "c3d4"
      = (Return cached, c') ∧
    ResolveBug samples.ReadLocalBug c' "c3d4" = (Return cached, c') ∧
    excerpts c' = excerpts samples.three_bugs.
Proof.
  do 2 eexists.
  match goal with
  | |- ?resolve = (Return ?cached, ?c') ∧ _ =>
      assert (resolve = (Return cached, c')) as Hres by reflexivity
  end.
  split; [exact Hres|].
  destruct (ResolveBug_keeps_bug _ _ _ _ _ _ Hres) as (He & _ & _ & Hagain).
  split; [exact Hagain | exact He].
Defined.

Lemma ResolveBugPrefix_full_id_witness :
  ResolveBugPrefix samples.ReadLocalBug map_to_list samples.three_bugs "1a2b"
  = ResolveBug samples.ReadLocalBug samples.three_bugs "1a2b".
Proof.
  apply (ResolveBugPrefix_full_id unit samples.ReadLocalBug map_to_list
           map_to_list_visits_once samples.three_bugs "1a2b"
           (samples.excerpt "1a2b" bug.OpenStatus 5
              {["origin" := "github"]})).
  - by vm_compute.
  - intros id' [e He]. simpl in He.
    apply lookup_insert_Some in He as [[<- _]|[_ He]]; [done|].
    apply lookup_insert_Some in He as [[<- _]|[_ He]]; [done|].
    apply lookup_insert_Some in He as [[<- _]|[_ He]]; [done|].
    by rewrite lookup_empty in He.
Defined.

Lemma ValidLabels_sorted_union_witness :
  ("crash" ∈ ValidLabels map_to_list elements samples.labelled_bugs) ∧
  ("feature" ∉ ValidLabels map_to_list elements samples.labelled_bugs) ∧
  NoDup (ValidLabels map_to_list elements samples.labelled_bugs).
Proof.
  destruct (ValidLabels_sorted_union unit samples.ReadLocalBug map_to_list
              map_to_list_visits_once elements elements_visits_once
              samples.labelled_bugs) as (Hin & Hnodup & _).
  split_and!; [| |exact Hnodup].
  - apply Hin. exists "c3d4", (samples.labelled "c3d4" ["bug"; "crash"]).
    split; [by vm_compute|]. by right; left.
  - intros (id & e & He & Hl)%Hin. simpl in He.
    apply lookup_insert_Some in He as [[_ <-]|[_ He]].
    { by repeat (apply elem_of_cons in Hl as [?|Hl]; [done|]);
        apply elem_of_nil in Hl. }
    apply lookup_insert_Some in He as [[_ <-]|[_ He]].
    { by repeat (apply elem_of_cons in Hl as [?|Hl]; [done|]);
        apply elem_of_nil in Hl. }
    by rewrite lookup_empty in He.
Defined.

Example ValidLabels_example :
  ValidLabels map_to_list elements samples.labelled_bugs
  = ["bug"; "crash"; "ui"].
Proof. by vm_compute. Qed.

Lemma QueryBugs_query_witness :
  ∃ l, QueryBugs map_to_list samples.three_bugs (Some default_query)
         = Return (Id <$> l) ∧
       length l = 2 ∧
       Sorted (λ a b, (EditTime b ≤ EditTime a)%N) l.
Proof.
  destruct (QueryBugs_query unit samples.ReadLocalBug map_to_list
              map_to_list_visits_once samples.three_bugs default_query)
    as [Hquery _].
  destruct Hquery as (l & Hres & Hperm & Hsorted);
    [intros n; vm_compute; discriminate|].
  exists l. split_and!; [exact Hres | | exact Hsorted].
  by rewrite Hperm.
Defined.

(** *** Resolving an operation by its metadata *)

Section ResolveTargetWithMetadata.
Variable Operation : Type.
Variable GetMetadata : Operation → string → option string.
Variable Operation_Hash : Operation → string + bug.Hash.

Lemma collect_targets_found key value (matching hashes : list bug.Hash)
    (operations : list Operation) :
  Forall2 (λ op h, Operation_Hash op = inr h)
          (filter (λ op, GetMetadata op key = Some value) operations)
          hashes →
  collect_targets Operation GetMetadata Operation_Hash key value
    matching operations = Return (matching ++ hashes).
Proof.
  revert matching hashes.
  induction operations as [|op operations IH]; intros matching hashes.
  - intros ->%Forall2_nil_inv_l. simpl. by rewrite app_nil_r.
  - simpl. destruct (GetMetadata op key) as [opValue|] eqn:Hmeta.
    + case_bool_decide as Hvalue.
      * subst opValue. rewrite filter_cons_True by done.
        intros (h & hashes' & Hh & Hrest & ->)%Forall2_cons_inv_l.
        rewrite Hh, (IH _ _ Hrest). by rewrite <-app_assoc.
      * rewrite filter_cons_False by (simpl; congruence). apply IH.
    + rewrite filter_cons_False by (simpl; congruence). apply IH.
Qed.

(** X17.  [ResolveTargetWithMetadata] looks at the operations that have the
    key with this very value, an operation without the key never being
    one of them: when their hashes can be computed, it fails with
    [ErrNoMatchingOp] if there is none, returns the hash if there is
    one, and fails with [ErrMultipleMatchOp] and all their hashes, in
    the order of the operations, if there are several. *)
Theorem ResolveTargetWithMetadata_rules (operations : list Operation)
    (key value : string) (hashes : list bug.Hash) :
  Forall2 (λ op h, Operation_Hash op = inr h)
          (filter (λ op, GetMetadata op key = Some value) operations)
          hashes →
  ResolveTargetWithMetadata Operation GetMetadata Operation_Hash
    operations key value =
    match hashes with
    | [] => Failure ErrNoMatchingOp
    | [h] => Return h
    | _ => Failure (ErrMultipleMatchOp hashes)
    end.
Proof.
  intros Hfound. unfold ResolveTargetWithMetadata.
  by rewrite (collect_targets_found key value [] hashes operations Hfound).
Qed.
End ResolveTargetWithMetadata.

Lemma ResolveTargetWithMetadata_rules_witness :
  ResolveTargetWithMetadata (gmap string string * string)
    (λ op key, op.1 !! key) (λ op, inr op.2)
    samples.imported_operations "github-id" "23" = Return "comment/23".
Proof.
  apply (ResolveTargetWithMetadata_rules (gmap string string * string)
           (λ op key, op.1 !! key) (λ op, inr op.2)
           samples.imported_operations "github-id" "23" ["comment/23"]).
  vm_compute. by repeat constructor.
Defined.

(** *** Excerpts of identities *)

(** X18.  An excerpt can be made of an identity exactly when the identity has
    an id and a version, and the excerpt then displays the name that the
    identity displays, or panics as the identity does. *)
Theorem NewIdentityExcerpt_DisplayName
    (Identity_ImmutableMetadata : identity.Identity → gmap string string)
    (i : identity.Identity) :
  (returns (NewIdentityExcerpt Identity_ImmutableMetadata i) = true ↔
     identity.id i ≠ "" ∧ identity.Versions i ≠ []) ∧
  (∀ e, NewIdentityExcerpt Identity_ImmutableMetadata i = Return e →
        same_outcome (identity.DisplayName i)
                     (IdentityExcerpt_DisplayName e)).
Proof.
  unfold NewIdentityExcerpt, identity.Identity_Id.
  pose proof (bool_decide_eq_true (identity.id i = "")) as Hempty.
  fold (is_empty (identity.id i)) in Hempty.
  destruct (is_empty (identity.id i)); simpl.
  { split; [|done]. split; [done|]. intros [[] _]. by apply Hempty. }
  assert (identity.id i ≠ "") as Hid by (by intros ?%Hempty).
  unfold identity.DisplayName, identity.Identity_Name,
    identity.Identity_Login, identity.LastVersion.
  rewrite <-last_is_Some.
  destruct (last (identity.Versions i)) as [v|]; simpl.
  - split; [split; [eauto|done]|].
    intros e [= <-]. unfold IdentityExcerpt_DisplayName, same_outcome. simpl.
    by destruct (is_empty (identity.Name v)),
         (is_empty (identity.Login v)).
  - split; [|done]. split; [done|]. by intros [_ []%is_Some_None].
Qed.

Lemma NewIdentityExcerpt_DisplayName_witness :
  ∃ e, NewIdentityExcerpt (λ _, ∅) samples.rene = Return e ∧
       IdentityExcerpt_DisplayName e = Return "René Descartes (rene)".
Proof.
  eexists. split; [reflexivity|].
  match goal with
  | |- IdentityExcerpt_DisplayName ?e = _ =>
      pose proof (proj2 (NewIdentityExcerpt_DisplayName (λ _, ∅)
                           samples.rene) e eq_refl) as Hsame
  end.
  by vm_compute.
Defined.

End cache_properties.
